(** * proximity-chat: the notification relay and the recipient resolver

    A shallow embedding of [main.go] (the websocket/Tile38 bridge): the
    subscription relay [psubscribe], the lifecycle handlers [onOpen] and
    [onClose], the message handlers [viewport], [feature] and [message],
    and the query aggregator [connectedClients].

    The Go program talks to three collaborators that are not part of it:
    the Tile38 server (through [redisDo]), the websocket transport with its
    connection registry ([srv.Conns], [Send]) and the JSON helpers (gjson,
    sjson).  Handlers are written in a small state monad over a [world]
    that holds the backend store, the registry and the chronological trace
    of everything the program did to the outside. *)

From Stdlib Require Import ZArith Ascii String List Floats.PrimFloat.
From stdpp Require Import base option gmap strings list fin_maps sets.

Import ListNotations.
#[local] Set Warnings "-clear-no-such-hyp".
Local Open Scope string_scope.
Local Open Scope list_scope.
Local Open Scope stdpp_scope.

(** ** Go strings *)

Module GoStrings.

(** [strings.Contains(s, substr)]. *)
Fixpoint Contains (s substr : string) : bool :=
  String.prefix substr s
  || match s with
     | EmptyString => false
     | String _ s' => Contains s' substr
     end.

(** [strings.Split(s, sep)] for a one-byte separator: the pieces of [s]
    between occurrences of [sep]; a string without [sep] gives the
    one-element slice [[s]]. *)
Fixpoint Split (s : string) (sep : ascii) : list string :=
  match s with
  | EmptyString => [EmptyString]
  | String c s' =>
      if Ascii.eqb c sep then EmptyString :: Split s' sep
      else match Split s' sep with
           | [] => [String c EmptyString]
           | piece :: pieces => String c piece :: pieces
           end
  end.

(** The separator does not occur in the string. *)
Fixpoint free_of (sep : ascii) (s : string) : bool :=
  match s with
  | EmptyString => true
  | String c s' => negb (Ascii.eqb c sep) && free_of sep s'
  end.

(** The double quote character, for building JSON text. *)
Definition dquote : string := String "034"%char EmptyString.

End GoStrings.

Import GoStrings.

(** ** Redis replies and redigo's reply helpers *)

Definition float64 := PrimFloat.float.

(** An argument of a command ([interface{}] in [redisDo]'s signature):
    the program passes strings, byte slices, untyped integer constants and
    [float64] coordinates. *)
Inductive arg :=
| AStr (s : string)
| AInt (n : Z)
| AFloat (f : float64).

Definition command := (string * list arg)%type.

(** A RESP reply as redigo hands it over. *)
#[warnings="-register-all"]
Inductive reply :=
| RNil
| RInt (n : Z)
| RBulk (b : string)
| RStatus (s : string)
| RArray (elems : list reply).

Definition error := string.

(** What [conn.Do] returns: a reply and an error. *)
Definition result := (reply * option error)%type.

Module redis.

Definition ErrNil : error := "redigo: nil returned".
Definition ErrType : error := "redigo: unexpected type".

(** [redis.Values(reply, err)]. *)
Definition Values (r : result) : list reply * option error :=
  match r with
  | (_, Some err) => ([], Some err)
  | (RArray elems, None) => (elems, None)
  | (RNil, None) => ([], Some ErrNil)
  | (_, None) => ([], Some ErrType)
  end.

Fixpoint bulks (elems : list reply) : option (list string) :=
  match elems with
  | [] => Some []
  | RBulk b :: rest => cons b <$> bulks rest
  | RNil :: rest => cons EmptyString <$> bulks rest
  | _ :: _ => None
  end.

(** [redis.Strings(reply, err)]: an array of bulk strings becomes a
    slice of strings, a nil element the empty string; any other shape
    is an error and the slice is nil. *)
Definition Strings (r : result) : list string * option error :=
  match r with
  | (_, Some err) => ([], Some err)
  | (RArray elems, None) =>
      match bulks elems with
      | Some l => (l, None)
      | None => ([], Some ErrType)
      end
  | (RNil, None) => ([], Some ErrNil)
  | (_, None) => ([], Some ErrType)
  end.

(** [redis.ByteSlices(reply, err)]: as [Strings], on byte slices. *)
Definition ByteSlices (r : result) : list string * option error :=
  Strings r.

(** What [psc.Receive()] returns: a [redis.Message], a
    [redis.Subscription], a [redis.Pong] or an [error].  [Error true _]
    is the error of a connection that is broken for good, on which every
    later [Receive] fails as well. *)
Inductive received :=
| Message (Channel Data : string)
| Subscription (Kind Channel : string) (Count : Z)
| Pong (Data : string)
| Error (fatal : bool) (err : error).

End redis.

Arguments redis.Values : simpl never.
Arguments redis.Strings : simpl never.
Arguments redis.ByteSlices : simpl never.

(** The shape of Tile38's answer to a search with [IDS]:
    a cursor and the array of matching ids. *)
Definition ids_reply (cursor : Z) (ids : list string) : reply :=
  RArray [RInt cursor; RArray (RBulk <$> ids)].

(** The shape of Tile38's answer to [SCAN]: a cursor and one
    [[id, object]] pair per object. *)
Definition objects_reply (cursor : Z) (objs : list (string * string)) : reply :=
  RArray [RInt cursor;
          RArray ((λ kv, RArray [RBulk kv.1; RBulk kv.2]) <$> objs)].

(** ** Collaborators *)

(** [redis.Conn]: the Go interface through which every command reaches
    Tile38.  A store of type [Store] answers a command and moves to its
    next state. *)
Class Conn (Store : Type) := {
  Do : command → Store → result * Store
}.

(** The file system and the JSON helpers, with the errors the program
    discards already dropped. *)
Class Libs := {
  (** [ioutil.ReadFile(name)] *)
  ReadFile : string → string;
  (** [gjson.Get(json, path).String()] *)
  gjson_String : string → string → string;
  (** [gjson.Get(json, path).Float()] *)
  gjson_Float : string → string → float64;
  (** [sjson.SetRaw(json, path, raw)] *)
  sjson_SetRaw : string → string → string → string;
  (** [sjson.SetBytes(json, path, value)] for a [[]string] value *)
  sjson_SetStrings : string → string → list string → string
}.

(** ** The world and the handler monad *)

(** What the program does to the outside, in the order it does it. *)
Inductive action :=
| ADo (cmd : command) (r : result)      (* a command sent through redisDo *)
| APSubscribe (patterns : list string)  (* psc.PSubscribe(...) *)
| ASend (connID msg : string)           (* Send on the connection connID *)
| ALog (line : string).                 (* log.Println / log.Printf *)

Record world (Store : Type) := World {
  db : Store;             (* Tile38 *)
  conns : gset string;    (* srv.Conns, by connection ID *)
  trace : list action
}.
Arguments World {Store}.
Arguments db {Store}.
Arguments conns {Store}.
Arguments trace {Store}.

(** A Go call either returns or panics (index out of range). *)
Inductive outcome (A : Type) :=
| Ret (a : A)
| Panic (why : string).
Arguments Ret {A}.
Arguments Panic {A}.

Definition M (Store A : Type) := world Store → outcome A * world Store.

Definition ret {Store A} (a : A) : M Store A := λ w, (Ret a, w).

Definition bind {Store A B} (m : M Store A) (k : A → M Store B) : M Store B :=
  λ w, match m w with
       | (Ret a, w') => k a w'
       | (Panic why, w') => (Panic why, w')
       end.

Definition panic {Store A} (why : string) : M Store A := λ w, (Panic why, w).

Notation "'let*' x ':=' m 'in' k" := (bind m (λ x, k))
  (at level 10, x name, m at level 100, k at level 200) : stdpp_scope.

(** [for _, x := range l { body }] *)
Fixpoint forRange {Store A} (l : list A) (body : A → M Store unit) : M Store unit :=
  match l with
  | [] => ret tt
  | x :: rest => let* _ := body x in forRange rest body
  end.

Definition emit {Store} (a : action) : M Store unit :=
  λ w, (Ret tt, World (db w) (conns w) (trace w ++ [a])).

(** [s[i]] on a slice. *)
Definition index {Store A} (s : list A) (i : nat) : M Store A :=
  match s !! i with
  | Some x => ret x
  | None => panic "index out of range"
  end.

Definition Send {Store} (connID msg : string) : M Store unit :=
  emit (ASend connID msg).

Definition log {Store} (line : string) : M Store unit :=
  emit (ALog line).

(** [srv.Conns.Get(id)]: the connection registered under [id], if any.
    A connection is identified with its ID. *)
Definition Conns_Get {Store} (id : string) : M Store (option string) :=
  λ w, (Ret (if decide (id ∈ conns w) then Some id else None), w).

(** [srv.Conns.IDs()] *)
Definition Conns_IDs {Store} : M Store (list string) :=
  λ w, (Ret (elements (conns w)), w).

(** [redisDo(cmd, args...)]: one command on a pooled connection. *)
Definition redisDo `{Conn Store} (cmd : string) (args : list arg) : M Store result :=
  λ w, let '(r, s) := Do (cmd, args) (db w) in
       (Ret r, World s (conns w) (trace w ++ [ADo (cmd, args) r])).

(** ** The program *)

(** [msgkit.Context]: the connection a websocket message came from and
    the message itself. *)
Record msgkit_Context := {
  ConnID : string;
  Message : string
}.

(** Where the receive loop of [psubscribe] stands when the events seen so
    far are used up. *)
Inductive loop_state :=
| Receiving                       (* inside [for { psc.Receive() ... }] *)
| Returned (rest : list redis.received). (* the function returned *)

Definition dist : Z := 100.

Definition static_places : list string := ["convention-center"; "hyatt-regency"].

Definition patterns : list string := ["viewport:*"; "roamchan"; "place:*"].

Section Program.

Context {Store : Type} `{!Conn Store} `{!Libs}.

(** *** main: the static places and the roaming fence *)

Definition place_props (place : string) : string :=
  gjson_String (ReadFile ("fences/" +:+ place +:+ ".geo.json")) "properties".

(** The body of [for _, place := range []string{...}]. *)
Fixpoint declare_places (l : list string) (props : gmap string string)
  : M Store (gmap string string) :=
  match l with
  | [] => ret props
  | place :: rest =>
      let gj := ReadFile ("fences/" +:+ place +:+ ".geo.json") in
      let props := <[place := gjson_String gj "properties"]> props in
      let* _ := redisDo "SET" [AStr "places"; AStr place; AStr "OBJECT"; AStr gj] in
      let* _ := redisDo "SETCHAN"
                  [AStr ("place:" +:+ place); AStr "WITHIN"; AStr "people";
                   AStr "FENCE"; AStr "DETECT"; AStr "enter,exit";
                   AStr "OBJECT"; AStr gj] in
      declare_places rest props
  end.

(** [main] up to the start of the subscriber: returns [props]. *)
Definition main_setup : M Store (gmap string string) :=
  let* props := declare_places static_places ∅ in
  let* _ := redisDo "SETCHAN"
              [AStr "roamchan"; AStr "NEARBY"; AStr "people"; AStr "FENCE";
               AStr "ROAM"; AStr "people"; AStr "*"; AInt dist] in
  ret props.

(** The [props] map [main] builds. *)
Definition main_props : gmap string string :=
  <["hyatt-regency" := place_props "hyatt-regency"]>
    (<["convention-center" := place_props "convention-center"]> ∅).

(** *** psubscribe *)

(** "Add any custom properties to the payload". *)
Definition decorate (props : gmap string string) (Channel msg : string) : string :=
  match props !! Channel with
  | Some p => sjson_SetRaw msg "properties" p
  | None => msg
  end.

(** One round of the [switch v := psc.Receive().(type)]. *)
Definition dispatch (props : gmap string string) (v : redis.received) : M Store unit :=
  match v with
  | redis.Message Channel Data =>
      let msg := Data in
      let msg := decorate props Channel msg in
      if Contains Channel "viewport" then
        let* id := index (Split Channel ":"%char) 1 in
        let* c := Conns_Get id in
        match c with
        | Some c => Send c msg
        | None => ret tt
        end
      else
        let* ids := Conns_IDs in
        forRange ids (λ id,
          let* c := Conns_Get id in
          match c with
          | Some c => Send c msg
          | None => ret tt
          end)
  | redis.Error _ err => log err
  | redis.Subscription _ _ _ | redis.Pong _ => ret tt
  end.

(** The inner [for] of [psubscribe] on the events received so far.  No
    branch of the switch leaves the loop. *)
Fixpoint receive_loop (props : gmap string string) (evs : list redis.received)
  : M Store loop_state :=
  match evs with
  | [] => ret Receiving
  | v :: rest => let* _ := dispatch props v in receive_loop props rest
  end.

Definition psubscribe (props : gmap string string) (evs : list redis.received)
  : M Store loop_state :=
  let* _ := emit (APSubscribe patterns) in
  receive_loop props evs.

(** [go func() { for { psubscribe(props) } }()]: [n] bounds the number
    of rounds of the outer loop. *)
Fixpoint subscriber (n : nat) (props : gmap string string) (evs : list redis.received)
  : M Store unit :=
  match n with
  | O => ret tt
  | S n' =>
      let* st := psubscribe props evs in
      match st with
      | Receiving => ret tt
      | Returned rest => subscriber n' props rest
      end
  end.

(** *** Lifecycle handlers *)

Definition id_message (connID : string) : string :=
  "{" +:+ dquote +:+ "type" +:+ dquote +:+ ":" +:+ dquote +:+ "ID" +:+ dquote
  +:+ "," +:+ dquote +:+ "id" +:+ dquote +:+ ":" +:+ dquote +:+ connID
  +:+ dquote +:+ "}".

Definition onOpen (connID : string) : M Store unit :=
  let* _ := Send connID (id_message connID) in
  let* r := redisDo "SCAN" [AStr "places"] in
  match redis.Values r with
  | (_, Some err) => log ("onOpen: " +:+ err)
  | (places, None) =>
      if Nat.ltb 1 (length places) then
        let* e := index places 1 in
        let ps := (redis.Values (e, None)).1 in
        forRange ps (λ p,
          let kv := (redis.ByteSlices (p, None)).1 in
          let* o := index kv 1 in
          Send connID o)
      else ret tt
  end.

Definition onClose (connID : string) : M Store unit :=
  let* _ := redisDo "DELCHAN" [AStr ("viewport:" +:+ connID)] in
  let* _ := redisDo "DEL" [AStr "people"; AStr connID] in
  ret tt.

(** *** Message handlers *)

Definition viewport (c : msgkit_Context) : M Store unit :=
  let swLng := gjson_Float (Message c) "data._sw.lng" in
  let swLat := gjson_Float (Message c) "data._sw.lat" in
  let neLng := gjson_Float (Message c) "data._ne.lng" in
  let neLat := gjson_Float (Message c) "data._ne.lat" in
  let* _ := redisDo "SETCHAN"
              [AStr ("viewport:" +:+ ConnID c); AStr "INTERSECTS"; AStr "people";
               AStr "FENCE"; AStr "DETECT"; AStr "inside"; AStr "BOUNDS";
               AFloat swLat; AFloat swLng; AFloat neLat; AFloat neLng] in
  ret tt.

Definition feature (c : msgkit_Context) : M Store unit :=
  let* _ := redisDo "SET"
              [AStr "people"; AStr (ConnID c); AStr "EX"; AInt 5;
               AStr "OBJECT"; AStr (Message c)] in
  ret tt.

(** [idMap[v] = append(idMap[v], label)] *)
Definition append_label (idMap : gmap string (list string)) (v label : string)
  : gmap string (list string) :=
  <[v := default [] (idMap !! v) ++ [label]]> idMap.

(** [for _, v := range peopleIDs { idMap[v] = append(idMap[v], label) }] *)
Definition label_all (idMap : gmap string (list string))
    (peopleIDs : list string) (label : string) : gmap string (list string) :=
  foldl (λ m v, append_label m v label) idMap peopleIDs.

Definition places_query (x y : float64) : list arg :=
  [AStr "places"; AStr "IDS"; AStr "BOUNDS";
   AFloat y; AFloat x; AFloat y; AFloat x].

Definition people_query (placeID : string) : list arg :=
  [AStr "people"; AStr "IDS"; AStr "GET"; AStr "places"; AStr placeID].

Definition nearby_query (x y : float64) : list arg :=
  [AStr "people"; AStr "IDS"; AStr "POINT"; AFloat y; AFloat x; AInt dist].

(** [for _, placeID := range placeIDs { ... }], with its early return. *)
Fixpoint people_in_places (placeIDs : list string)
    (idMap : gmap string (list string))
  : M Store (error + gmap string (list string)) :=
  match placeIDs with
  | [] => ret (inr idMap)
  | placeID :: rest =>
      let* r := redisDo "INTERSECTS" (people_query placeID) in
      match redis.Values r with
      | (_, Some err) => ret (inl err)
      | (peopleRes, None) =>
          let* e := index peopleRes 1 in
          let peopleIDs := (redis.Strings (e, None)).1 in
          people_in_places rest (label_all idMap peopleIDs placeID)
      end
  end.

(** [connectedClients(x, y)]: [inl err] is Go's [(nil, err)], [inr idMap]
    is [(idMap, nil)]. *)
Definition connectedClients (x y : float64)
  : M Store (error + gmap string (list string)) :=
  let idMap : gmap string (list string) := ∅ in
  let* r := redisDo "INTERSECTS" (places_query x y) in
  match redis.Values r with
  | (_, Some err) => ret (inl err)
  | (placeRes, None) =>
      let* inPlaces :=
        (if Nat.ltb 1 (length placeRes) then
           let* e := index placeRes 1 in
           let placeIDs := (redis.Strings (e, None)).1 in
           people_in_places placeIDs idMap
         else ret (inr idMap)) in
      match inPlaces with
      | inl err => ret (inl err)
      | inr idMap =>
          let* r := redisDo "NEARBY" (nearby_query x y) in
          match redis.Values r with
          | (_, Some err) => ret (inl err)
          | (nearbyRes, None) =>
              let* e := index nearbyRes 1 in
              let peopleIDs := (redis.Strings (e, None)).1 in
              ret (inr (label_all idMap peopleIDs "roaming"))
          end
      end
  end.

(** [newMsg]: the payload with the recipient's labels as [via]. *)
Definition newMsg (c : msgkit_Context) (places : list string) : string :=
  sjson_SetStrings (Message c) "feature.properties.via" places.

(** The body of [for cid, places := range cc]. *)
Definition deliver (c : msgkit_Context) (entry : string * list string)
  : M Store unit :=
  let* ws := Conns_Get entry.1 in
  match ws with
  | Some ws => Send ws (newMsg c entry.2)
  | None => ret tt
  end.

(** [message]: Go ranges over the map in an unspecified order;
    [map_to_list] is one such order. *)
Definition message (c : msgkit_Context) : M Store unit :=
  let feature := gjson_String (Message c) "feature" in
  let* cc := connectedClients
               (gjson_Float feature "geometry.coordinates.0")
               (gjson_Float feature "geometry.coordinates.1") in
  match cc with
  | inl err => log ("connectedClients: " +:+ err)
  | inr cc => forRange (map_to_list cc) (deliver c)
  end.

End Program.

(** ** Backends *)

(** A backend that answers by a fixed table and keeps no state: what the
    aggregator sees of Tile38 while nobody moves. *)
Definition script := command → result.

#[export] Instance script_conn : Conn script := {
  Do cmd s := (s cmd, s)
}.

Module Tile38.

(** Modelled from the spec: the Tile38 server is an external service
    and none of its code is in the repository.  Section 6 of the spec
    gives the commands the program relies on: store-object,
    delete-object, declare-channel, delete-channel and scan.  Objects
    are kept by collection and id, channel declarations by name; the
    time-to-live of [EX] and the geometric searches are left out. *)
Record store := Store {
  objects : gmap (string * string) string;
  channels : gmap string (list arg)
}.

Definition empty : store := Store ∅ ∅.

Definition ok : result := (RStatus "OK", None).

Definition unsupported (s : store) : result * store :=
  ((RNil, Some "ERR not modelled"), s).

(** The object of [SET key id ... OBJECT obj]: the last argument. *)
Definition object_of (args : list arg) : option string :=
  match last args with
  | Some (AStr obj) => Some obj
  | _ => None
  end.

Definition scan (coll : string) (s : store) : list (string * string) :=
  omap (λ kv : string * string * string,
          if String.eqb kv.1.1 coll then Some (kv.1.2, kv.2) else None)
       (map_to_list (objects s)).

Definition exec (cmd : command) (s : store) : result * store :=
  match cmd with
  | (name, AStr key :: AStr id :: rest) =>
      if String.eqb name "SET" then
        match object_of rest with
        | Some obj => (ok, Store (<[(key, id) := obj]> (objects s)) (channels s))
        | None => unsupported s
        end
      else if String.eqb name "DEL" then
        (ok, Store (delete (key, id) (objects s)) (channels s))
      else if String.eqb name "SETCHAN" then
        (ok, Store (objects s) (<[key := AStr id :: rest]> (channels s)))
      else unsupported s
  | (name, [AStr key]) =>
      if String.eqb name "DELCHAN" then
        (ok, Store (objects s) (delete key (channels s)))
      else if String.eqb name "SCAN" then
        ((objects_reply 0 (scan key s), None), s)
      else unsupported s
  | _ => unsupported s
  end.

#[global] Instance conn : Conn store := { Do := exec }.

End Tile38.

(** ** Reading traces *)

(** The payloads sent to one connection, in order. *)
Definition sends_to (connID : string) (t : list action) : list string :=
  omap (λ a, match a with
             | ASend id msg => if String.eqb id connID then Some msg else None
             | _ => None
             end) t.

(** How many times the subscribe step ran. *)
Definition is_subscribe (a : action) : bool :=
  match a with APSubscribe _ => true | _ => false end.

Definition subscriptions (t : list action) : nat :=
  length (List.filter is_subscribe t).

(** The lines written to the log, in order. *)
Definition logged (t : list action) : list string :=
  omap (λ a, match a with ALog l => Some l | _ => None end) t.

(** The error of a backend lookup, as [redis.Values] reports it. *)
Definition failed (a : action) : option error :=
  match a with
  | ADo _ r => (redis.Values r).2
  | _ => None
  end.

(** What a handler added to the trace of [w]. *)
Definition added {Store A} (w : world Store) (r : outcome A * world Store)
  : list action :=
  drop (length (trace w)) (trace r.2).

(** The channel name matches the subscription pattern [viewport:*]. *)
Definition viewport_channel (Channel : string) : bool :=
  String.prefix "viewport:" Channel.

(** How often [p] occurs in a slice of ids. *)
Definition occurrences (p : string) (ids : list string) : nat :=
  length (filter (λ v, v = p) ids).

(** ** A small town, for trying the handlers out *)

Module Sample.

(** Symbolic JSON helpers: they record what was asked of them. *)
#[export] Instance libs : Libs := {
  ReadFile name := "<" +:+ name +:+ ">";
  gjson_String json path := json +:+ "." +:+ path;
  gjson_Float json path := PrimFloat.zero;
  sjson_SetRaw json path raw := json +:+ "[" +:+ path +:+ ":=" +:+ raw +:+ "]";
  sjson_SetStrings json path l :=
    json +:+ "[" +:+ path +:+ ":=" +:+ String.concat "," l +:+ "]"
}.

Definition last_string (args : list arg) : string :=
  match last args with
  | Some (AStr s) => s
  | _ => EmptyString
  end.

(** The convention center holds alice and bob; bob and carol are within
    the roaming radius of the query point. *)
Definition town : script := λ cmd,
  if String.eqb cmd.1 "NEARBY" then (ids_reply 0 ["bob"; "carol"], None)
  else if String.eqb cmd.1 "SCAN" then
    (objects_reply 0 [("convention-center", "cc.geo.json");
                      ("hyatt-regency", "hr.geo.json")], None)
  else if String.eqb cmd.1 "INTERSECTS" then
    if String.eqb (last_string cmd.2) "convention-center"
    then (ids_reply 0 ["alice"; "bob"], None)
    else if String.eqb (last_string cmd.2) "hyatt-regency"
    then (ids_reply 0 [], None)
    else (ids_reply 0 ["convention-center"; "hyatt-regency"], None)
  else (RStatus "OK", None).

(** Nobody anywhere. *)
Definition desert : script := λ cmd,
  if String.eqb cmd.1 "INTERSECTS" then
    if String.eqb (last_string cmd.2) "convention-center"
    then (ids_reply 0 [], None)
    else (ids_reply 0 ["convention-center"], None)
  else (ids_reply 0 [], None).

(** The places are found, the search for their people fails. *)
Definition outage : script := λ cmd,
  if String.eqb (last_string cmd.2) "convention-center"
  then (RNil, Some "connection refused")
  else (ids_reply 0 ["convention-center"], None).

Definition chat : msgkit_Context :=
  {| ConnID := "bob"; Message := "hello" |}.

(** alice and bob are connected; carol is known to Tile38 only. *)
Definition registry : gset string := {["alice"; "bob"]}.

Definition start : world script := World town registry [].

(** What [town] holds, as the aggregator's searches report it. *)
Definition regions : list (string * list string) :=
  [("convention-center", ["alice"; "bob"]); ("hyatt-regency", [])].

Definition nearby : list string := ["bob"; "carol"].

Definition origin : float64 := PrimFloat.zero.

(** Who is resolved at the origin, and why. *)
Definition resolved : gmap string (list string) :=
  <["carol" := ["roaming"]]>
    (<["bob" := ["convention-center"; "roaming"]]>
       (<["alice" := ["convention-center"]]> ∅)).

Definition places : list (string * string) :=
  [("convention-center", "cc.geo.json"); ("hyatt-regency", "hr.geo.json")].

(** A fresh Tile38 with the same registry. *)
Definition fresh : world Tile38.store := World Tile38.empty registry [].

End Sample.


(** ** What the aggregator is asked to compute *)

(** The store answers the search [cmd] with the ids [ids] and stays as it
    is. *)
Definition answers {Store} `{!Conn Store} (s : Store) (cmd : command)
    (ids : list string) : Prop :=
  ∃ cursor, Do cmd s = ((ids_reply cursor ids, None), s).

(** The spec's step 1: for each matching region in turn, and for every
    person id found in it, the region's id is appended. *)
Fixpoint region_labels (p : string) (regions : list (string * list string))
  : list string :=
  match regions with
  | [] => []
  | (placeID, people) :: rest =>
      replicate (occurrences p people) placeID ++ region_labels p rest
  end.

(** The spec's step 2: for every person id found within the radius, the
    label ["roaming"] is appended. *)
Definition roaming_labels (p : string) (nearby : list string) : list string :=
  replicate (occurrences p nearby) "roaming".

(** The code's two loops over the regions, as one fold. *)
Definition label_regions (idMap : gmap string (list string))
    (regions : list (string * list string)) : gmap string (list string) :=
  foldl (λ m region, label_all m region.2 region.1) idMap regions.

(** A backend lookup whose reply [redis.Values] accepts. *)
Definition answered (a : action) : Prop :=
  match a with
  | ADo _ r => (redis.Values r).2 = None
  | _ => False
  end.

(** How the result of a resolution relates to what it did: it only made
    lookups; an error result comes from the last lookup, the only one
    that failed; otherwise no lookup failed. *)
Definition lookups_agree {A} (o : outcome (error + A)) (acts : list action) : Prop :=
  match o with
  | Ret (inl err) =>
      ∃ acts0 a, acts = acts0 ++ [a]
                 ∧ Forall answered acts0
                 ∧ failed a = Some err
  | _ => Forall answered acts
  end.

(** ** What a chat message is expected to cause *)

(** The point a chat message is about, as [message] reads it. *)
Definition message_point `{!Libs} (c : msgkit_Context) : float64 * float64 :=
  let feature := gjson_String (Message c) "feature" in
  (gjson_Float feature "geometry.coordinates.0",
   gjson_Float feature "geometry.coordinates.1").

(** One send per entry whose connection is registered. *)
Definition deliveries `{!Libs} (c : msgkit_Context) (registry : gset string)
    (entries : list (string * list string)) : list action :=
  flat_map (λ entry, if decide (entry.1 ∈ registry)
                     then [ASend entry.1 (newMsg c entry.2)]
                     else []) entries.

(** ** Further vocabulary for the properties below *)

(** Redis pattern matching, for patterns made of literal characters and
    an optional final [*] (all that [psubscribe] uses). *)
Fixpoint glob (pattern s : string) : bool :=
  match pattern with
  | EmptyString => match s with EmptyString => true | _ => false end
  | String c pattern' =>
      if Ascii.eqb c "*"
         && match pattern' with EmptyString => true | _ => false end
      then true
      else match s with
           | String d s' => Ascii.eqb c d && glob pattern' s'
           | EmptyString => false
           end
  end.

(** The channel is one the subscription of [psubscribe] delivers. *)
Definition subscribed (Channel : string) : bool :=
  existsb (λ pattern, glob pattern Channel) patterns.

(** An event the subscription can deliver: a message on a subscribed
    channel, or anything that is not a message. *)
Definition deliverable (v : redis.received) : bool :=
  match v with
  | redis.Message Channel _ => subscribed Channel
  | _ => true
  end.

(** What one event adds to the trace. *)
Definition relayed {Store} `{!Libs} (props : gmap string string)
    (v : redis.received) (w : world Store) : list action :=
  added w (dispatch props v w).

(** The commands sent to the backend, in order. *)
Definition commands (t : list action) : list command :=
  omap (λ a, match a with ADo cmd _ => Some cmd | _ => None end) t.

Definition is_lookup (a : action) : bool :=
  match a with ADo _ _ => true | _ => false end.

(** The websocket messages of one connection that change the backend,
    as [main] routes them: ["Feature"] to [feature], ["Viewport"] to
    [viewport]. *)
Inductive update :=
| Feature (msg : string)
| Viewport (msg : string).

Definition handle {Store} `{!Conn Store} `{!Libs} (connID : string) (u : update)
  : M Store unit :=
  match u with
  | Feature msg => feature {| ConnID := connID; Message := msg |}
  | Viewport msg => viewport {| ConnID := connID; Message := msg |}
  end.

(** A connection's updates, handled one after the other. *)
Definition session {Store} `{!Conn Store} `{!Libs} (connID : string)
    (updates : list update) : M Store unit :=
  forRange updates (handle connID).

(** The fence [viewport] declares for a message. *)
Definition viewport_fence `{!Libs} (msg : string) : list arg :=
  [AStr "INTERSECTS"; AStr "people"; AStr "FENCE"; AStr "DETECT";
   AStr "inside"; AStr "BOUNDS";
   AFloat (gjson_Float msg "data._sw.lat"); AFloat (gjson_Float msg "data._sw.lng");
   AFloat (gjson_Float msg "data._ne.lat"); AFloat (gjson_Float msg "data._ne.lng")].

(** The pattern has no [*]. *)
Fixpoint literal (pattern : string) : bool :=
  match pattern with
  | EmptyString => true
  | String c pattern' => negb (Ascii.eqb c "*") && literal pattern'
  end.

(** The outcome and the actions of [dispatch] on a registry, run on a
    world with nothing else in it. *)
Definition dispatch_on `{!Libs} (props : gmap string string)
    (registry : gset string) (v : redis.received) : outcome unit * list action :=
  let r := dispatch props v (World tt registry []) in (r.1, trace r.2).

(** The commands of [main] before it starts the subscriber. *)
Definition startup_commands `{!Libs} : list command :=
  let file place := ReadFile ("fences/" +:+ place +:+ ".geo.json") in
  let declare place :=
    [("SET", [AStr "places"; AStr place; AStr "OBJECT"; AStr (file place)]);
     ("SETCHAN", [AStr ("place:" +:+ place); AStr "WITHIN"; AStr "people";
                  AStr "FENCE"; AStr "DETECT"; AStr "enter,exit";
                  AStr "OBJECT"; AStr (file place)])] in
  declare "convention-center" ++ declare "hyatt-regency"
  ++ [("SETCHAN", [AStr "roamchan"; AStr "NEARBY"; AStr "people"; AStr "FENCE";
                   AStr "ROAM"; AStr "people"; AStr "*"; AInt 100])].

(** ** Backends and inputs at the edges *)

Module Edge.

(** The place search finds an empty array; bob and carol are nearby. *)
Definition flat : script := λ cmd,
  if String.eqb cmd.1 "NEARBY" then (ids_reply 0 ["bob"; "carol"], None)
  else (RArray [], None).

(** Every reply is an empty array. *)
Definition hollow : script := λ _, (RArray [], None).

(** The place search is answered in full and finds nothing; the nearby
    search is answered with an empty array. *)
Definition mute : script := λ cmd,
  if String.eqb cmd.1 "NEARBY" then (RArray [], None)
  else (ids_reply 0 [], None).

(** Two places are found; alice is in the first, and the search for the
    people of the second is answered with an empty array. *)
Definition second : script := λ cmd,
  if String.eqb (Sample.last_string cmd.2) "convention-center"
  then (ids_reply 0 ["alice"], None)
  else if String.eqb (Sample.last_string cmd.2) "hyatt-regency"
  then (RArray [], None)
  else (ids_reply 0 ["convention-center"; "hyatt-regency"], None).

(** Tile38 cannot be reached. *)
Definition down : script := λ _, (RNil, Some "connection refused").

Definition on (backend : script) : world script :=
  World backend Sample.registry [].

(** What the subscription receives, in order. *)
Definition events : list redis.received :=
  [redis.Message "roamchan" "e1";
   redis.Message "viewport:bob" "v1";
   redis.Error false "oops";
   redis.Message "place:hyatt-regency" "e2"].

(** What bob sends before he leaves. *)
Definition updates : list update :=
  [Feature "here"; Viewport "view"; Feature "there"].

End Edge.

(** The command is one of Tile38's searches, which read and do not
    write. *)
Definition searching (cmd : command) : bool :=
  String.eqb cmd.1 "INTERSECTS" || String.eqb cmd.1 "NEARBY".

(** A search for people (those of a place, or those nearby the point)
    that is answered without error by an array of fewer than two
    elements. *)
Definition short_people_reply (x y : float64) (a : action) : Prop :=
  ∃ cmd r vals,
    a = ADo cmd r
    ∧ (cmd = ("NEARBY", nearby_query x y)
       ∨ ∃ placeID, cmd = ("INTERSECTS", people_query placeID))
    ∧ redis.Values r = (vals, None)
    ∧ (length vals ≤ 1)%nat.

(** The command a connection's update sends to the backend, as [feature]
    and [viewport] spell it. *)
Definition update_command `{!Libs} (connID : string) (u : update) : command :=
  match u with
  | Feature msg =>
      ("SET", [AStr "people"; AStr connID; AStr "EX"; AInt 5;
               AStr "OBJECT"; AStr msg])
  | Viewport msg =>
      ("SETCHAN", [AStr ("viewport:" +:+ connID); AStr "INTERSECTS";
                   AStr "people"; AStr "FENCE"; AStr "DETECT"; AStr "inside";
                   AStr "BOUNDS";
                   AFloat (gjson_Float msg "data._sw.lat");
                   AFloat (gjson_Float msg "data._sw.lng");
                   AFloat (gjson_Float msg "data._ne.lat");
                   AFloat (gjson_Float msg "data._ne.lng")])
  end.
(** * Properties *)

(** ** Strings *)

Lemma Contains_prefix (s substr : string) :
  String.prefix substr s = true → Contains s substr = true.
Proof. intros Hp. destruct s; simpl in *; rewrite Hp; reflexivity. Qed.

Lemma Contains_viewport_channel (id : string) :
  Contains ("viewport:" +:+ id) "viewport" = true.
Proof. apply Contains_prefix. reflexivity. Qed.

Lemma Split_viewport_channel (rest : string) :
  Split ("viewport:" +:+ rest) ":"%char = "viewport" :: Split rest ":"%char.
Proof. reflexivity. Qed.

Example Split_three : Split "viewport:a:b" ":"%char = ["viewport"; "a"; "b"].
Proof. reflexivity. Qed.

Example Split_none : Split "roamchan" ":"%char = ["roamchan"].
Proof. reflexivity. Qed.

Example Contains_inside : Contains "place:viewport-plaza" "viewport" = true.
Proof. reflexivity. Qed.

Example Contains_not : Contains "place:hyatt-regency" "viewport" = false.
Proof. reflexivity. Qed.

Lemma Split_free_of (sep : ascii) (s : string) :
  free_of sep s = true → Split s sep = [s].
Proof.
  induction s as [|c s IH]; simpl; [reflexivity|].
  destruct (Ascii.eqb c sep); simpl; [discriminate|].
  intros Hs. rewrite (IH Hs). reflexivity.
Qed.

Lemma String_eqb_decide (a b : string) :
  String.eqb a b = bool_decide (a = b).
Proof.
  destruct (String.eqb_spec a b) as [->|Hne].
  - symmetry. by apply bool_decide_eq_true.
  - symmetry. by apply bool_decide_eq_false.
Qed.

(** ** Traces *)

Section Traces.

Context {Store : Type}.

Lemma added_app {A} (w : world Store) (o : outcome A) s c acts :
  added w (o, World s c (trace w ++ acts)) = acts.
Proof. unfold added; simpl. by rewrite drop_app_length. Qed.

Lemma sends_to_app id t1 t2 :
  sends_to id (t1 ++ t2) = sends_to id t1 ++ sends_to id t2.
Proof. unfold sends_to. apply omap_app. Qed.

Lemma sends_to_same id msg : sends_to id [ASend id msg] = [msg].
Proof. unfold sends_to; simpl. by rewrite String.eqb_refl. Qed.

Lemma sends_to_other id id' msg :
  id' ≠ id → sends_to id [ASend id' msg] = [].
Proof.
  intros Hne. unfold sends_to; simpl.
  rewrite String_eqb_decide, bool_decide_eq_false_2; done.
Qed.

(** One copy for each id of a duplicate-free list, none for the others. *)
Lemma sends_to_fanout id msg (ids : list string) :
  NoDup ids →
  sends_to id ((λ i, ASend i msg) <$> ids)
  = if decide (id ∈ ids) then [msg] else [].
Proof.
  induction 1 as [|i ids Hi Hnd IH].
  - destruct (decide (id ∈ [])) as [Hin|]; [|done]. by apply elem_of_nil in Hin.
  - rewrite fmap_cons.
    change (ASend i msg :: ((λ i0, ASend i0 msg) <$> ids))
      with ([ASend i msg] ++ ((λ i0, ASend i0 msg) <$> ids)).
    rewrite sends_to_app, IH.
    destruct (decide (i = id)) as [->|Hne].
    + rewrite sends_to_same.
      destruct (decide (id ∈ ids)); [done|].
      destruct (decide (id ∈ id :: ids)) as [|Hn]; [done|].
      exfalso. apply Hn. apply elem_of_cons. by left.
    + rewrite sends_to_other by done. simpl.
      destruct (decide (id ∈ ids)) as [H1|H1];
        destruct (decide (id ∈ i :: ids)) as [H2|H2]; try done.
      * exfalso. apply H2. apply elem_of_cons. by right.
      * exfalso. apply elem_of_cons in H2 as [?|?]; [congruence|done].
Qed.

End Traces.

(** ** The subscription relay *)

Section Relay.

Context {Store : Type} `{!Conn Store} `{!Libs}.

Implicit Types (w : world Store) (props : gmap string string).

Lemma world_eta w : World (db w) (conns w) (trace w ++ []) = w.
Proof. destruct w; simpl. by rewrite app_nil_r. Qed.

(** The broadcast loop sends one message per id of the slice. *)
Lemma broadcast_run (ids : list string) (msg : string) w :
  (∀ id, id ∈ ids → id ∈ conns w) →
  forRange ids (λ id,
    let* c := Conns_Get id in
    match c with
    | Some c => Send c msg
    | None => ret tt
    end) w
  = (Ret tt, World (db w) (conns w) (trace w ++ ((λ id, ASend id msg) <$> ids))).
Proof.
  revert w. induction ids as [|id ids IH]; intros w Hin; simpl.
  - unfold ret. by rewrite world_eta.
  - unfold bind at 1. unfold bind at 1. unfold Conns_Get.
    rewrite decide_True by (apply Hin; set_solver).
    unfold Send, emit. rewrite IH by (simpl; intros; apply Hin; set_solver).
    simpl. by rewrite <- app_assoc.
Qed.

Lemma dispatch_broadcast props Channel Data w :
  Contains Channel "viewport" = false →
  dispatch props (redis.Message Channel Data) w
  = (Ret tt, World (db w) (conns w)
               (trace w ++ ((λ id, ASend id (decorate props Channel Data))
                              <$> elements (conns w)))).
Proof.
  intros Hc. unfold dispatch. rewrite Hc.
  unfold bind at 1. unfold Conns_IDs.
  apply broadcast_run. intros id. by rewrite elem_of_elements.
Qed.

(** The keys of [main_props] are place names, and no channel the
    subscription delivers is one of them. *)
Lemma main_props_lookup (Channel : string) :
  Channel ≠ "hyatt-regency" → Channel ≠ "convention-center" →
  main_props !! Channel = None.
Proof.
  intros H1 H2. unfold main_props.
  rewrite lookup_insert_ne by done.
  rewrite lookup_insert_ne by done.
  apply lookup_empty.
Qed.

Lemma main_setup_props w :
  ∃ w', main_setup w = (Ret main_props, w') ∧ conns w' = conns w.
Proof.
  unfold main_setup, static_places, declare_places, bind, redisDo, ret; simpl.
  repeat match goal with
         | |- context [Do ?c ?s] => destruct (Do c s) as [? ?]; simpl
         end.
  eexists; split; reflexivity.
Qed.

(** The receive loop never leaves through [Returned]. *)
Lemma receive_loop_stays props (evs : list redis.received) w st w' :
  receive_loop props evs w = (Ret st, w') → st = Receiving.
Proof.
  revert w. induction evs as [|v evs IH]; intros w; simpl.
  - unfold ret. congruence.
  - unfold bind at 1. destruct (dispatch props v w) as [[[]|why] w1].
    + apply IH.
    + discriminate.
Qed.

(** Whatever is received, [dispatch] leaves the backend and the
    registry alone and never subscribes. *)
Lemma dispatch_quiet props (v : redis.received) w :
  ∃ acts, (dispatch props v w).2 = World (db w) (conns w) (trace w ++ acts)
          ∧ subscriptions acts = 0.
Proof.
  destruct v as [Channel Data|k c n|d|f err].
  - destruct (Contains Channel "viewport") eqn:Hc.
    + unfold dispatch. rewrite Hc.
      unfold bind, index, Conns_Get, ret, panic.
      destruct (Split Channel ":" !! 1) as [id|]; simpl.
      * destruct (decide (id ∈ conns w)); simpl.
        -- by exists [ASend id (decorate props Channel Data)].
        -- exists []. by rewrite world_eta.
      * exists []. by rewrite world_eta.
    + rewrite dispatch_broadcast by done. simpl.
      eexists; split; [reflexivity|].
      unfold subscriptions. induction (elements (conns w)); simpl; auto.
  - exists []. by rewrite world_eta.
  - exists []. by rewrite world_eta.
  - by exists [ALog err].
Qed.

Lemma subscriptions_app (t1 t2 : list action) :
  subscriptions (t1 ++ t2) = subscriptions t1 + subscriptions t2.
Proof. unfold subscriptions. by rewrite List.filter_app, length_app. Qed.

Lemma receive_loop_quiet props (evs : list redis.received) w :
  ∃ acts, (receive_loop props evs w).2
          = World (db w) (conns w) (trace w ++ acts)
          ∧ subscriptions acts = 0.
Proof.
  revert w. induction evs as [|v evs IH]; intros w; simpl.
  - exists []. by rewrite world_eta.
  - unfold bind at 1.
    destruct (dispatch_quiet props v w) as (a1 & E1 & Z1).
    destruct (dispatch props v w) as [[[]|why] w1]; simpl in E1; subst w1.
    + destruct (IH (World (db w) (conns w) (trace w ++ a1))) as (a2 & E2 & Z2).
      exists (a1 ++ a2). rewrite E2; simpl. rewrite <- app_assoc.
      split; [done|]. rewrite subscriptions_app. lia.
    + by exists a1.
Qed.

Lemma subscriber_once (n : nat) props (evs : list redis.received) w :
  subscriptions (added w (subscriber (S n) props evs w)) = 1.
Proof.
  simpl. unfold bind at 1. unfold psubscribe, bind at 1, emit.
  set (w0 := World (db w) (conns w) (trace w ++ [APSubscribe patterns])).
  destruct (receive_loop_quiet props evs w0) as (acts & E & Z).
  pose proof (receive_loop_stays props evs w0) as Hst.
  destruct (receive_loop props evs w0) as [[st|why] w1]; simpl in E; subst w1.
  - rewrite (Hst st _ eq_refl). unfold ret, w0; simpl.
    rewrite <- app_assoc, added_app, subscriptions_app, Z. reflexivity.
  - unfold w0; simpl.
    rewrite <- app_assoc, added_app, subscriptions_app, Z. reflexivity.
Qed.

End Relay.

(** C1: the decoration of place events.  [main] files the properties of a
    place under the place name and hands that table to [psubscribe], which
    looks them up under the channel name, ["place:"] followed by the place
    name.  So for both static places the table has the properties, the
    lookup by channel misses them, and every connection is sent the raw
    payload [Data], without the [properties] field set. *)
Theorem place_event_sent_undecorated {Store} `{!Conn Store} `{!Libs}
    (place Data : string) (w : world Store) :
  place ∈ static_places →
  (main_setup w).1 = Ret main_props
  ∧ main_props !! place = Some (place_props place)
  ∧ main_props !! ("place:" +:+ place) = None
  ∧ dispatch main_props (redis.Message ("place:" +:+ place) Data) w
    = (Ret tt, World (db w) (conns w)
                 (trace w ++ ((λ id, ASend id Data) <$> elements (conns w)))).
Proof.
  intros Hp. split.
  { destruct (main_setup_props w) as (w' & Hsetup & _). by rewrite Hsetup. }
  assert (place = "convention-center" ∨ place = "hyatt-regency") as [->| ->].
  { unfold static_places in Hp.
    apply elem_of_cons in Hp as [->|Hp]; [by left|].
    apply elem_of_cons in Hp as [->|Hp]; [by right|].
    by apply elem_of_nil in Hp. }
  - split; [|split].
    + unfold main_props. rewrite lookup_insert_ne by done.
      by rewrite lookup_insert_eq.
    + by apply main_props_lookup.
    + rewrite dispatch_broadcast by reflexivity.
      unfold decorate. by rewrite main_props_lookup.
  - split; [|split].
    + unfold main_props. by rewrite lookup_insert_eq.
    + by apply main_props_lookup.
    + rewrite dispatch_broadcast by reflexivity.
      unfold decorate. by rewrite main_props_lookup.
Qed.

(** C2: errors on the subscription.  An error event, fatal or not, is
    logged and the receive loop goes on with the next event on the same
    connection; [psubscribe] has no way out of its loop, so the outer loop
    of the subscriber never starts a second round: whatever is received,
    the subscribe step runs exactly once. *)
Theorem fatal_error_never_resubscribes {Store} `{!Conn Store} `{!Libs}
    (n : nat) (props : gmap string string) (evs : list redis.received)
    (w : world Store) :
  (∀ fatal err rest,
     receive_loop props (redis.Error fatal err :: rest) w
     = receive_loop props rest (World (db w) (conns w) (trace w ++ [ALog err])))
  ∧ (∀ st w', psubscribe props evs w = (Ret st, w') → st = Receiving)
  ∧ subscriptions (added w (subscriber (S n) props evs w)) = 1.
Proof.
  split; [|split].
  - reflexivity.
  - intros st w'. unfold psubscribe, bind at 1, emit.
    apply receive_loop_stays.
  - apply subscriber_once.
Qed.

(** C4 (amended): an event on the channel ["viewport:" ++ id], for an [id]
    without [":"], is sent to the connection [id] and to no other; when
    [id] is not in the registry nothing is sent and nothing is logged. *)
Theorem viewport_event_reaches_owner_only {Store} `{!Conn Store} `{!Libs}
    (props : gmap string string) (id Data : string) (w : world Store) :
  free_of ":" id = true →
  dispatch props (redis.Message ("viewport:" +:+ id) Data) w
  = (Ret tt, World (db w) (conns w)
               (trace w ++ if decide (id ∈ conns w)
                           then [ASend id (decorate props ("viewport:" +:+ id) Data)]
                           else [])).
Proof.
  intros Hid. unfold dispatch.
  rewrite Contains_viewport_channel, Split_viewport_channel.
  rewrite (Split_free_of _ _ Hid). simpl.
  unfold bind, index, ret, Conns_Get; simpl.
  destruct (decide (id ∈ conns w)); [done|].
  unfold ret. by rewrite world_eta.
Qed.

(** C5 (amended): an event on a channel whose name does not contain
    ["viewport"] is sent once to every connection of the registry, and to
    no connection outside it. *)
Theorem broadcast_reaches_every_connection {Store} `{!Conn Store} `{!Libs}
    (props : gmap string string) (Channel Data : string) (w : world Store) :
  Contains Channel "viewport" = false →
  (dispatch props (redis.Message Channel Data) w).1 = Ret tt
  ∧ ∀ id, sends_to id (added w (dispatch props (redis.Message Channel Data) w))
          = if decide (id ∈ conns w) then [decorate props Channel Data] else [].
Proof.
  intros Hc. rewrite dispatch_broadcast by done. split; [done|].
  intros id. rewrite added_app, sends_to_fanout by apply NoDup_elements.
  destruct (decide (id ∈ elements (conns w))) as [H1|H1];
    destruct (decide (id ∈ conns w)) as [H2|H2]; try done;
    rewrite elem_of_elements in H1; done.
Qed.

(** ** The query aggregator *)

Section Aggregator.

Context {Store : Type} `{!Conn Store} `{!Libs}.

Implicit Types (w : world Store) (m : gmap string (list string)).

Lemma bulks_ids (ids : list string) : redis.bulks (RBulk <$> ids) = Some ids.
Proof.
  induction ids as [|i ids IH]; [done|].
  rewrite fmap_cons. cbn [redis.bulks]. by rewrite IH.
Qed.

Lemma Strings_ids (ids : list string) :
  redis.Strings (RArray (RBulk <$> ids), None) = (ids, None).
Proof. unfold redis.Strings. by rewrite bulks_ids. Qed.

Lemma Values_ids_reply (cursor : Z) (ids : list string) :
  redis.Values (ids_reply cursor ids, None)
  = ([RInt cursor; RArray (RBulk <$> ids)], None).
Proof. reflexivity. Qed.

Lemma occurrences_cons_eq (p : string) ids :
  occurrences p (p :: ids) = S (occurrences p ids).
Proof. unfold occurrences. by rewrite filter_cons_True. Qed.

Lemma occurrences_cons_ne (p v : string) ids :
  v ≠ p → occurrences p (v :: ids) = occurrences p ids.
Proof. intros. unfold occurrences. by rewrite filter_cons_False. Qed.

Lemma occurrences_pos (p : string) ids : p ∈ ids ↔ 0 < occurrences p ids.
Proof.
  induction ids as [|v ids IH].
  - split; [by intros ?%elem_of_nil | unfold occurrences; simpl; lia].
  - destruct (decide (v = p)) as [->|Hne].
    + rewrite occurrences_cons_eq. split; [lia|]. intros _. apply elem_of_cons; by left.
    + rewrite occurrences_cons_ne, <- IH by done.
      rewrite elem_of_cons. naive_solver.
Qed.

(** Appending a label for each id of a slice, read at one person. *)
Lemma label_all_labels m (ids : list string) (label p : string) :
  default [] (label_all m ids label !! p)
  = default [] (m !! p) ++ replicate (occurrences p ids) label.
Proof.
  revert m. induction ids as [|v ids IH]; intros m.
  - simpl. by rewrite app_nil_r.
  - unfold label_all in *. simpl. rewrite IH.
    destruct (decide (v = p)) as [->|Hne].
    + rewrite occurrences_cons_eq. unfold append_label.
      rewrite lookup_insert_eq. simpl. by rewrite <- app_assoc.
    + rewrite occurrences_cons_ne by done. unfold append_label.
      by rewrite lookup_insert_ne.
Qed.

Lemma label_all_is_Some m (ids : list string) (label p : string) :
  is_Some (label_all m ids label !! p) ↔ is_Some (m !! p) ∨ p ∈ ids.
Proof.
  revert m. induction ids as [|v ids IH]; intros m.
  - simpl. rewrite elem_of_nil. naive_solver.
  - unfold label_all in *. simpl. rewrite IH. unfold append_label.
    rewrite elem_of_cons.
    destruct (decide (v = p)) as [->|Hne].
    + rewrite lookup_insert_eq. split; [intros _; right; by left|].
      intros _. left. by eexists.
    + rewrite lookup_insert_ne by done. naive_solver.
Qed.

Lemma label_regions_labels m (regions : list (string * list string)) (p : string) :
  default [] (label_regions m regions !! p)
  = default [] (m !! p) ++ region_labels p regions.
Proof.
  revert m. induction regions as [|[placeID people] regions IH]; intros m.
  - simpl. by rewrite app_nil_r.
  - unfold label_regions in *. simpl. rewrite IH, label_all_labels.
    by rewrite <- app_assoc.
Qed.

Lemma label_regions_is_Some m (regions : list (string * list string)) (p : string) :
  is_Some (label_regions m regions !! p)
  ↔ is_Some (m !! p) ∨ ∃ region, region ∈ regions ∧ p ∈ region.2.
Proof.
  revert m. induction regions as [|region regions IH]; intros m.
  - simpl. split; [by left|]. intros [?|(? & ?%elem_of_nil & _)]; done.
  - unfold label_regions in *. simpl. rewrite IH, label_all_is_Some.
    split.
    + intros [[?|?]|(r & ? & ?)]; [by left| |].
      * right. exists region. split; [apply elem_of_cons; by left|done].
      * right. exists r. split; [apply elem_of_cons; by right|done].
    + intros [?|(r & [->|?]%elem_of_cons & ?)].
      * left; by left.
      * left; by right.
      * right. by exists r.
Qed.

Lemma region_labels_elem (p : string) (regions : list (string * list string))
    (region : string * list string) :
  region ∈ regions → p ∈ region.2 → region.1 ∈ region_labels p regions.
Proof.
  induction regions as [|[placeID people] regions IH].
  - by intros ?%elem_of_nil.
  - intros [->|Hin]%elem_of_cons Hp; simpl; apply elem_of_app.
    + left. simpl in Hp. apply occurrences_pos in Hp.
      destruct (occurrences p people); [lia|]. simpl. apply elem_of_cons; by left.
    + right. by apply IH.
Qed.

Lemma roaming_labels_elem (p : string) (nearby : list string) :
  p ∈ nearby → "roaming" ∈ roaming_labels p nearby.
Proof.
  intros Hp%occurrences_pos. unfold roaming_labels.
  destruct (occurrences p nearby); [lia|]. simpl. apply elem_of_cons; by left.
Qed.

(** The loop over the regions when every search is answered. *)
Lemma people_in_places_run (regions : list (string * list string)) m w :
  Forall (λ region, answers (db w) ("INTERSECTS", people_query region.1) region.2)
         regions →
  ∃ acts,
    people_in_places (regions.*1) m w
    = (Ret (inr (label_regions m regions)),
       World (db w) (conns w) (trace w ++ acts)).
Proof.
  revert m w. induction regions as [|[placeID people] regions IH]; intros m w Hall.
  - exists []. simpl. unfold ret. by rewrite world_eta.
  - apply Forall_cons in Hall as [[cursor Hdo] Hall]. simpl in Hdo.
    simpl. unfold bind at 1. unfold redisDo. rewrite Hdo. simpl.
    rewrite ?Values_ids_reply.
    unfold bind at 1. unfold index, ret. simpl. rewrite Strings_ids. simpl.
    destruct (IH (label_all m people placeID)
                (World (db w) (conns w)
                   (trace w ++ [ADo ("INTERSECTS", people_query placeID)
                                  (ids_reply cursor people, None)])))
      as [acts Hrun]; [done|].
    change (list_fmap _ _ fst regions) with (regions.*1).
    rewrite Hrun. simpl. eexists. by rewrite <- app_assoc.
Qed.

(** The whole resolution when every search is answered. *)
Lemma connectedClients_run (x y : float64)
    (regions : list (string * list string)) (nearby : list string) w :
  answers (db w) ("INTERSECTS", places_query x y) (regions.*1) →
  Forall (λ region, answers (db w) ("INTERSECTS", people_query region.1) region.2)
         regions →
  answers (db w) ("NEARBY", nearby_query x y) nearby →
  ∃ acts,
    connectedClients x y w
    = (Ret (inr (label_all (label_regions ∅ regions) nearby "roaming")),
       World (db w) (conns w) (trace w ++ acts)).
Proof.
  intros [c1 H1] H2 [c3 H3].
  unfold connectedClients. unfold bind at 1. unfold redisDo at 1.
  rewrite H1. simpl. rewrite ?Values_ids_reply. simpl.
  unfold bind at 1. unfold bind at 1.
  unfold index at 1, ret at 1. simpl. rewrite Strings_ids. simpl.
  edestruct (people_in_places_run regions ∅) as [acts Hrun]; [|rewrite Hrun].
  { exact H2. }
  simpl. unfold bind at 1. unfold redisDo. simpl. rewrite H3. simpl.
  rewrite ?Values_ids_reply.
  unfold bind, index, ret. simpl. rewrite Strings_ids. simpl.
  eexists. rewrite <- !app_assoc. reflexivity.
Qed.

(** *** Failing lookups *)

Lemma answered_not_failed (a : action) : answered a → failed a = None.
Proof. by destruct a. Qed.

Lemma answered_no_send (cid : string) (acts : list action) :
  Forall answered acts → sends_to cid acts = [].
Proof.
  induction 1 as [|a acts Ha _ IH]; [done|].
  destruct a; done.
Qed.

Lemma failed_no_send (cid : string) (a : action) (err : error) :
  failed a = Some err → sends_to cid [a] = [].
Proof. by destruct a. Qed.

(** A resolution sends nothing to anybody. *)
Lemma lookups_agree_no_send {A} (o : outcome (error + A)) acts (cid : string) :
  lookups_agree o acts → sends_to cid acts = [].
Proof.
  destruct o as [[err|v]|why]; simpl; try apply answered_no_send.
  intros (acts0 & a & -> & Hok & Hf).
  by rewrite sends_to_app, (answered_no_send _ _ Hok), (failed_no_send _ _ _ Hf).
Qed.

Lemma lookups_agree_cons {A} (o : outcome (error + A)) (a : action) acts :
  answered a → lookups_agree o acts → lookups_agree o (a :: acts).
Proof.
  intros Ha. destruct o as [[err|v]|why]; simpl.
  - intros (acts0 & a' & -> & Hok & Hf).
    exists (a :: acts0), a'. split; [done|]. split; [|done].
    by constructor.
  - intros. by constructor.
  - intros. by constructor.
Qed.

Lemma people_in_places_outcome (placeIDs : list string) m w o w' :
  people_in_places placeIDs m w = (o, w') →
  ∃ acts, conns w' = conns w ∧ trace w' = trace w ++ acts
          ∧ lookups_agree o acts.
Proof.
  revert m w. induction placeIDs as [|placeID placeIDs IH]; intros m w Hrun.
  - injection Hrun as <- <-. exists []. rewrite app_nil_r.
    repeat split. constructor.
  - cbn [people_in_places] in Hrun. unfold bind at 1 in Hrun.
    unfold redisDo in Hrun.
    destruct (Do ("INTERSECTS", people_query placeID) (db w)) as [r s].
    set (a := ADo ("INTERSECTS", people_query placeID) r) in *.
    destruct (redis.Values r) as [peopleRes [err|]] eqn:HV.
    + injection Hrun as <- <-. exists [a]. simpl. repeat split.
      exists [], a. repeat split; [constructor|]. simpl. by rewrite HV.
    + assert (Ha : answered a) by (simpl; by rewrite HV).
      unfold bind at 1 in Hrun. unfold index in Hrun.
      destruct (peopleRes !! 1) as [e|].
      * unfold ret at 1 in Hrun.
        apply IH in Hrun as (acts & Hc & Ht & Hv). simpl in Hc, Ht.
        exists (a :: acts). rewrite Hc, Ht, <- app_assoc.
        repeat split. by apply lookups_agree_cons.
      * injection Hrun as <- <-. exists [a]. simpl. repeat split.
        by repeat constructor.
Qed.

Lemma connectedClients_outcome (x y : float64) w o w' :
  connectedClients x y w = (o, w') →
  ∃ acts, conns w' = conns w ∧ trace w' = trace w ++ acts
          ∧ lookups_agree o acts.
Proof.
  unfold connectedClients. unfold bind at 1. unfold redisDo at 1.
  destruct (Do ("INTERSECTS", places_query x y) (db w)) as [r1 s1].
  set (a1 := ADo ("INTERSECTS", places_query x y) r1).
  destruct (redis.Values r1) as [placeRes [err|]] eqn:HV1.
  { intros Hrun. injection Hrun as <- <-. exists [a1]. simpl. repeat split.
    exists [], a1. repeat split; [constructor|]. simpl. by rewrite HV1. }
  assert (Ha1 : answered a1) by (simpl; by rewrite HV1).
  set (w1 := World s1 (conns w) (trace w ++ [a1])).
  unfold bind at 1.
  destruct ((if Nat.ltb 1 (length placeRes)
             then let* e := index placeRes 1 in
                  people_in_places (redis.Strings (e, None)).1 ∅
             else ret (inr ∅)) w1) as [o2 w2] eqn:Hregions.
  assert (∃ acts, conns w2 = conns w ∧ trace w2 = trace w1 ++ acts
                  ∧ lookups_agree o2 acts) as (acts2 & Hc2 & Ht2 & Hv2).
  { destruct (Nat.ltb 1 (length placeRes)).
    - unfold bind, index in Hregions. destruct (placeRes !! 1) as [e|].
      + unfold ret at 1 in Hregions.
        by apply people_in_places_outcome in Hregions.
      + injection Hregions as <- <-. exists []. rewrite app_nil_r.
        repeat split. constructor.
    - injection Hregions as <- <-. exists []. rewrite app_nil_r.
      repeat split. constructor. }
  simpl in Ht2.
  destruct o2 as [[err|idMap]|why].
  - intros Hrun. injection Hrun as <- <-.
    exists (a1 :: acts2). rewrite Hc2, Ht2, <- app_assoc. repeat split.
    by apply (lookups_agree_cons (Ret (inl err))).
  - (* the roaming search *)
    unfold bind at 1. unfold redisDo.
    destruct (Do ("NEARBY", nearby_query x y) (db w2)) as [r3 s3].
    set (a3 := ADo ("NEARBY", nearby_query x y) r3).
    destruct (redis.Values r3) as [nearbyRes [err|]] eqn:HV3.
    + intros Hrun. injection Hrun as <- <-.
      exists (a1 :: acts2 ++ [a3]). simpl. rewrite Hc2, Ht2, <- !app_assoc.
      repeat split.
      exists (a1 :: acts2), a3. repeat split.
      * by constructor.
      * simpl. by rewrite HV3.
    + assert (Ha3 : answered a3) by (simpl; by rewrite HV3).
      assert (Hall : Forall answered (a1 :: acts2 ++ [a3])).
      { constructor; [done|]. apply Forall_app; split; [done|].
        by repeat constructor. }
      unfold bind, index. destruct (nearbyRes !! 1) as [e|].
      * intros Hrun. injection Hrun as <- <-.
        exists (a1 :: acts2 ++ [a3]). simpl. rewrite Hc2, Ht2, <- !app_assoc.
        by repeat split.
      * intros Hrun. injection Hrun as <- <-.
        exists (a1 :: acts2 ++ [a3]). simpl. rewrite Hc2, Ht2, <- !app_assoc.
        by repeat split.
  - intros Hrun. injection Hrun as <- <-.
    exists (a1 :: acts2). rewrite Hc2, Ht2, <- app_assoc. repeat split.
    by constructor.
Qed.

End Aggregator.

(** C3: when the search for regions, the search for the people of each
    region and the search for nearby people are all answered, the result
    of [connectedClients] is a map with one entry per person found: the
    people of some matched region together with the people within the
    roaming radius.  A person's labels are the ids of the regions that
    hold it, in the order the regions were found, followed by
    ["roaming"] when the person is nearby; so a person both inside a
    region and nearby has one entry with both labels, the region first. *)
Theorem connectedClients_merges_regions_and_roaming
    {Store} `{!Conn Store} `{!Libs} (x y : float64)
    (regions : list (string * list string)) (nearby : list string)
    (w : world Store) :
  answers (db w) ("INTERSECTS", places_query x y) (regions.*1) →
  Forall (λ region, answers (db w) ("INTERSECTS", people_query region.1) region.2)
         regions →
  answers (db w) ("NEARBY", nearby_query x y) nearby →
  ∃ idMap,
    (connectedClients x y w).1 = Ret (inr idMap)
    ∧ (∀ p, is_Some (idMap !! p)
            ↔ (∃ region, region ∈ regions ∧ p ∈ region.2) ∨ p ∈ nearby)
    ∧ (∀ p, default [] (idMap !! p)
            = region_labels p regions ++ roaming_labels p nearby)
    ∧ (∀ p region, region ∈ regions → p ∈ region.2 →
                   region.1 ∈ region_labels p regions)
    ∧ (∀ p, p ∈ nearby → roaming_labels p nearby ≠ []
                         ∧ Forall (λ l, l = "roaming") (roaming_labels p nearby)).
Proof.
  intros H1 H2 H3.
  destruct (connectedClients_run x y regions nearby w H1 H2 H3) as [acts Hrun].
  eexists. rewrite Hrun. split; [reflexivity|].
  split; [|split; [|split]].
  - intros p. rewrite label_all_is_Some, label_regions_is_Some.
    rewrite lookup_empty. split.
    + intros [[[? ?]|?]|?]; [done|by left|by right].
    + intros [?|?]; [left; by right|by right].
  - intros p. rewrite label_all_labels, label_regions_labels.
    by rewrite lookup_empty.
  - intros p region. apply region_labels_elem.
  - intros p Hp. split.
    + apply roaming_labels_elem in Hp. intros Hnil. rewrite Hnil in Hp.
      by apply elem_of_nil in Hp.
    + unfold roaming_labels. apply Forall_replicate. reflexivity.
Qed.

(** C6: [connectedClients] returns the empty map, and no error, when the
    searches are answered and find nobody; and when any lookup it makes
    fails, it returns that lookup's error and no map at all. *)
Theorem connectedClients_empty_or_error
    {Store} `{!Conn Store} `{!Libs} (x y : float64) (w : world Store) :
  (∀ placeIDs,
     answers (db w) ("INTERSECTS", places_query x y) placeIDs →
     Forall (λ placeID, answers (db w) ("INTERSECTS", people_query placeID) [])
            placeIDs →
     answers (db w) ("NEARBY", nearby_query x y) [] →
     (connectedClients x y w).1 = Ret (inr ∅))
  ∧ (∀ a err,
       a ∈ added w (connectedClients x y w) → failed a = Some err →
       (connectedClients x y w).1 = Ret (inl err)).
Proof.
  split.
  - intros placeIDs H1 H2 H3.
    set (regions := (λ placeID : string, (placeID, @nil string)) <$> placeIDs).
    assert (Hfst : regions.*1 = placeIDs).
    { unfold regions. rewrite <- list_fmap_compose. apply list_fmap_id. }
    destruct (connectedClients_run x y regions [] w) as [acts Hrun].
    + by rewrite Hfst.
    + unfold regions. apply Forall_fmap. eapply Forall_impl; [exact H2|done].
    + done.
    + rewrite Hrun. simpl. f_equal. f_equal. apply map_eq. intros p.
      rewrite lookup_empty. apply eq_None_not_Some.
      rewrite label_regions_is_Some, lookup_empty.
      intros [[? ?]|(region & Hin & Hp)]; [done|].
      unfold regions in Hin. apply list_elem_of_fmap in Hin as (placeID & -> & _).
      by apply elem_of_nil in Hp.
  - intros a err Hin Hfail.
    destruct (connectedClients x y w) as [o w'] eqn:Hrun.
    apply connectedClients_outcome in Hrun as (acts & _ & Ht & Hv).
    unfold added in Hin. simpl in Hin. rewrite Ht, drop_app_length in Hin.
    simpl. destruct o as [[err'|idMap]|why]; simpl in Hv.
    + destruct Hv as (acts0 & a' & -> & Hok & Hf).
      apply elem_of_app in Hin as [Hin|Hin].
      * rewrite Forall_forall in Hok.
        rewrite (answered_not_failed a (Hok a Hin)) in Hfail. done.
      * apply list_elem_of_singleton in Hin as ->. congruence.
    + rewrite Forall_forall in Hv.
      rewrite (answered_not_failed a (Hv a Hin)) in Hfail. done.
    + rewrite Forall_forall in Hv.
      rewrite (answered_not_failed a (Hv a Hin)) in Hfail. done.
Qed.

(** ** Lifecycle handlers *)

Section Lifecycle.

Context {Store : Type} `{!Conn Store} `{!Libs}.

Implicit Types (w : world Store).

(** One [[id, object]] pair of a [SCAN] reply is pushed as its object. *)
Lemma push_places_run (connID : string) (objs : list (string * string)) w :
  forRange ((λ kv : string * string, RArray [RBulk kv.1; RBulk kv.2]) <$> objs)
    (λ p, let kv := (redis.ByteSlices (p, None)).1 in
          let* o := index kv 1 in
          Send connID o) w
  = (Ret tt, World (db w) (conns w)
               (trace w ++ ((λ kv, ASend connID kv.2) <$> objs))).
Proof.
  revert w. induction objs as [|[id obj] objs IH]; intros w.
  - simpl. unfold ret. by rewrite world_eta.
  - rewrite !fmap_cons. cbn [forRange]. unfold bind at 1.
    unfold bind at 1. unfold index, ret, Send, emit. simpl.
    rewrite IH. simpl. by rewrite <- app_assoc.
Qed.

(** The loop that pushes the places only ever adds to the trace. *)
Lemma push_places_extends (connID : string) (ps : list reply) w o w' :
  forRange ps (λ p, let kv := (redis.ByteSlices (p, None)).1 in
                    let* o := index kv 1 in
                    Send connID o) w = (o, w') →
  ∃ acts, trace w' = trace w ++ acts.
Proof.
  revert w. induction ps as [|p ps IH]; intros w Hrun.
  - injection Hrun as <- <-. exists []. by rewrite app_nil_r.
  - cbn [forRange] in Hrun. unfold bind at 1 in Hrun.
    unfold bind at 1 in Hrun. unfold index in Hrun.
    destruct ((redis.ByteSlices (p, None)).1 !! 1) as [v|].
    + unfold ret, Send, emit in Hrun.
      apply IH in Hrun as [acts Ht]. simpl in Ht.
      rewrite Ht, <- app_assoc. by eexists.
    + injection Hrun as <- <-. exists []. by rewrite app_nil_r.
Qed.

Lemma onOpen_first_send (connID : string) w :
  ∃ rest, added w (onOpen connID w) = ASend connID (id_message connID) :: rest.
Proof.
  unfold onOpen. unfold bind at 1. unfold Send at 1, emit.
  unfold bind at 1. unfold redisDo. simpl.
  destruct (Do ("SCAN", [AStr "places"]) (db w)) as [r s].
  set (w2 := World s (conns w)
               ((trace w ++ [ASend connID (id_message connID)])
                  ++ [ADo ("SCAN", [AStr "places"]) r])).
  assert (Hgoal : ∀ R : outcome unit * world Store,
            (∃ acts, trace R.2 = trace w2 ++ acts) →
            ∃ rest, added w R = ASend connID (id_message connID) :: rest).
  { intros R [acts Ht]. unfold added. rewrite Ht. unfold w2; simpl.
    rewrite <- !app_assoc, drop_app_length. simpl. by eexists. }
  apply Hgoal.
  destruct (redis.Values r) as [places [err|]].
  - unfold log, emit. simpl. by eexists.
  - destruct (Nat.ltb 1 (length places)).
    + unfold bind at 1. unfold index. destruct (places !! 1) as [e|].
      * unfold ret at 1.
        match goal with
        | |- ∃ acts, trace (?run).2 = _ =>
            destruct run as [o w'] eqn:Hrun
        end.
        by apply push_places_extends in Hrun.
      * exists []. simpl. by rewrite app_nil_r.
    + exists []. simpl. by rewrite app_nil_r.
Qed.

Lemma onOpen_run (connID : string) (cursor : Z) (objs : list (string * string))
    (s' : Store) w :
  Do ("SCAN", [AStr "places"]) (db w) = ((objects_reply cursor objs, None), s') →
  onOpen connID w
  = (Ret tt,
     World s' (conns w)
       (trace w ++ ASend connID (id_message connID)
                :: ADo ("SCAN", [AStr "places"]) (objects_reply cursor objs, None)
                :: ((λ kv, ASend connID kv.2) <$> objs))).
Proof.
  intros Hdo. unfold onOpen. unfold bind at 1. unfold Send at 1, emit.
  unfold bind at 1. unfold redisDo. simpl. rewrite Hdo.
  change (redis.Values (objects_reply cursor objs, None))
    with ([RInt cursor;
           RArray ((λ kv : string * string, RArray [RBulk kv.1; RBulk kv.2])
                     <$> objs)], @None error).
  cbn [length Nat.ltb Nat.leb]. unfold bind at 1. unfold index at 1, ret at 1.
  cbn [lookup list_lookup].
  change (redis.Values (RArray ((λ kv : string * string,
                                   RArray [RBulk kv.1; RBulk kv.2]) <$> objs),
                        None)).1
    with ((λ kv : string * string, RArray [RBulk kv.1; RBulk kv.2]) <$> objs).
  rewrite push_places_run. simpl. by rewrite <- !app_assoc.
Qed.

(** [onClose] sends its two commands and returns, whatever the backend
    says. *)
Lemma onClose_returns (connID : string) w :
  (onClose connID w).1 = Ret tt.
Proof.
  unfold onClose, bind, redisDo, ret.
  destruct (Do ("DELCHAN", [AStr ("viewport:" +:+ connID)]) (db w)) as [r1 s1].
  simpl.
  by destruct (Do ("DEL", [AStr "people"; AStr connID]) s1) as [r2 s2].
Qed.

End Lifecycle.

(** On the Tile38 model, [onClose] is two deletions. *)
Lemma onClose_Tile38 `{!Libs} (connID : string) (w : world Tile38.store) :
  onClose connID w
  = (Ret tt,
     World (Tile38.Store (delete ("people", connID) (Tile38.objects (db w)))
              (delete ("viewport:" +:+ connID) (Tile38.channels (db w))))
       (conns w)
       (trace w ++ [ADo ("DELCHAN", [AStr ("viewport:" +:+ connID)]) Tile38.ok;
                    ADo ("DEL", [AStr "people"; AStr connID]) Tile38.ok])).
Proof.
  unfold onClose, bind, redisDo, ret. simpl. by rewrite <- app_assoc.
Qed.

(** C7: on the Tile38 model, [onClose] returns without an error from
    either deletion, and after it the connection has neither a person
    record nor a viewport fence.  Run when neither exists it leaves the
    store as it is, and a second run leaves the store as the first left
    it. *)
Theorem onClose_idempotent `{!Libs} (connID : string) (w : world Tile38.store) :
  let w1 := (onClose connID w).2 in
  (onClose connID w).1 = Ret tt
  ∧ added w (onClose connID w)
    = [ADo ("DELCHAN", [AStr ("viewport:" +:+ connID)]) Tile38.ok;
       ADo ("DEL", [AStr "people"; AStr connID]) Tile38.ok]
  ∧ Tile38.objects (db w1) !! ("people", connID) = None
  ∧ Tile38.channels (db w1) !! ("viewport:" +:+ connID) = None
  ∧ (Tile38.objects (db w) !! ("people", connID) = None →
     Tile38.channels (db w) !! ("viewport:" +:+ connID) = None →
     db w1 = db w)
  ∧ (onClose connID w1).1 = Ret tt
  ∧ added w1 (onClose connID w1) = added w (onClose connID w)
  ∧ db (onClose connID w1).2 = db w1.
Proof.
  intros w1. unfold w1. rewrite !onClose_Tile38. cbn [fst snd db].
  rewrite !added_app.
  split; [done|]. split; [done|].
  split; [apply lookup_delete_eq|]. split; [apply lookup_delete_eq|].
  split.
  - intros Hp Hv. destruct w as [[objs chans] reg t]; simpl in *.
    by rewrite !delete_id.
  - split; [done|]. split; [done|].
    cbn [Tile38.objects Tile38.channels]. by rewrite !delete_delete_eq.
Qed.

(** C8: [onOpen] first sends the connection its ID message, the text
    [{"type":"ID","id":"<connID>"}] (the character [034] is the double
    quote); and when [SCAN places] is answered with the stored places,
    the ID message is followed by the scan and then by one send per
    place, each carrying the place's object, in the order of the reply. *)
Theorem onOpen_sends_id_then_places {Store} `{!Conn Store} `{!Libs}
    (connID : string) (w : world Store) :
  (∃ rest,
     added w (onOpen connID w)
     = ASend connID
         ("{" +:+ String "034"%char "type" +:+ String "034"%char ":"
          +:+ String "034"%char "ID" +:+ String "034"%char ","
          +:+ String "034"%char "id" +:+ String "034"%char ":"
          +:+ String "034"%char connID +:+ String "034"%char "}")
       :: rest)
  ∧ (∀ cursor objs s',
       Do ("SCAN", [AStr "places"]) (db w) = ((objects_reply cursor objs, None), s') →
       (onOpen connID w).1 = Ret tt
       ∧ added w (onOpen connID w)
         = ASend connID
             ("{" +:+ String "034"%char "type" +:+ String "034"%char ":"
              +:+ String "034"%char "ID" +:+ String "034"%char ","
              +:+ String "034"%char "id" +:+ String "034"%char ":"
              +:+ String "034"%char connID +:+ String "034"%char "}")
           :: ADo ("SCAN", [AStr "places"]) (objects_reply cursor objs, None)
           :: ((λ kv, ASend connID kv.2) <$> objs)).
Proof.
  split; [exact (onOpen_first_send connID w)|].
  intros cursor objs s' Hdo. rewrite (onOpen_run _ _ _ _ _ Hdo).
  split; [done|]. rewrite added_app. reflexivity.
Qed.

(** ** The chat message handler *)

Section Chat.

Context {Store : Type} `{!Conn Store} `{!Libs}.

Implicit Types (w : world Store) (cc : gmap string (list string)).

Lemma deliver_all (c : msgkit_Context) (entries : list (string * list string)) w :
  forRange entries (deliver c) w
  = (Ret tt, World (db w) (conns w)
               (trace w ++ deliveries c (conns w) entries)).
Proof.
  revert w. induction entries as [|[cid places] entries IH]; intros w.
  - simpl. unfold ret. by rewrite world_eta.
  - cbn [forRange]. unfold bind at 1. unfold deliver at 1.
    unfold bind at 1. unfold Conns_Get. cbn [fst snd].
    unfold deliveries. cbn [flat_map fst snd].
    destruct (decide (cid ∈ conns w)).
    + unfold Send, emit. rewrite IH. simpl. by rewrite <- app_assoc.
    + unfold ret at 1. by rewrite IH.
Qed.

(** With one entry per connection, a connection is sent the message of
    its own entry and nothing else. *)
Lemma sends_to_deliveries (c : msgkit_Context) (registry : gset string)
    (entries : list (string * list string)) (cid : string) :
  NoDup (entries.*1) →
  sends_to cid (deliveries c registry entries)
  = match (list_to_map entries : gmap string (list string)) !! cid with
    | Some places => if decide (cid ∈ registry) then [newMsg c places] else []
    | None => []
    end.
Proof.
  induction entries as [|[k places] entries IH]; intros Hnd.
  - simpl. by rewrite lookup_empty.
  - rewrite fmap_cons in Hnd. apply NoDup_cons in Hnd as [Hk Hnd].
    unfold deliveries in *. cbn [flat_map fst snd].
    rewrite sends_to_app, (IH Hnd). cbn [list_to_map foldr].
    destruct (decide (k = cid)) as [->|Hne].
    + rewrite lookup_insert_eq.
      rewrite (not_elem_of_list_to_map_1 entries cid Hk), app_nil_r.
      destruct (decide (cid ∈ registry)); [|done].
      apply sends_to_same.
    + rewrite lookup_insert_ne by done.
      destruct (decide (k ∈ registry)); [|done].
      by rewrite sends_to_other.
Qed.

Lemma message_run (c : msgkit_Context) cc w w1 :
  connectedClients (message_point c).1 (message_point c).2 w
  = (Ret (inr cc), w1) →
  message c w
  = (Ret tt, World (db w1) (conns w1)
               (trace w1 ++ deliveries c (conns w1) (map_to_list cc))).
Proof.
  intros Hcc. unfold message. unfold bind at 1.
  unfold message_point in Hcc. cbn [fst snd] in Hcc. rewrite Hcc.
  apply deliver_all.
Qed.

(** What each connection is sent by [message], over the whole run. *)
Lemma message_sends (c : msgkit_Context) cc w w1 (cid : string) :
  connectedClients (message_point c).1 (message_point c).2 w
  = (Ret (inr cc), w1) →
  sends_to cid (added w (message c w))
  = match cc !! cid with
    | Some places => if decide (cid ∈ conns w) then [newMsg c places] else []
    | None => []
    end.
Proof.
  intros Hcc. rewrite (message_run c cc w w1 Hcc).
  apply connectedClients_outcome in Hcc as (acts & Hc & Ht & Hv).
  unfold added. cbn [snd trace]. rewrite Ht, <- app_assoc, drop_app_length.
  rewrite sends_to_app, (lookups_agree_no_send _ _ _ Hv). cbn [app].
  rewrite sends_to_deliveries by apply NoDup_fst_map_to_list.
  by rewrite list_to_map_to_list, Hc.
Qed.

End Chat.

(** C9: when the resolution at the message's coordinates succeeds with
    the map [cc], [message] returns, and over its whole run a connection
    that has an entry in [cc] and is in the registry is sent exactly one
    message, the payload with its labels set as [feature.properties.via];
    a connection with an entry but not in the registry, or without an
    entry, is sent nothing. *)
Theorem message_reaches_resolved_connections {Store} `{!Conn Store} `{!Libs}
    (c : msgkit_Context) (cc : gmap string (list string)) (w w1 : world Store) :
  connectedClients (message_point c).1 (message_point c).2 w
  = (Ret (inr cc), w1) →
  (message c w).1 = Ret tt
  ∧ ∀ cid, sends_to cid (added w (message c w))
           = match cc !! cid with
             | Some places =>
                 if decide (cid ∈ conns w)
                 then [sjson_SetStrings (Message c) "feature.properties.via" places]
                 else []
             | None => []
             end.
Proof.
  intros Hcc. split.
  - by rewrite (message_run c cc w w1 Hcc).
  - intros cid. by rewrite (message_sends c cc w w1 cid Hcc).
Qed.

(** C10: the sender is a recipient like any other: when the sender's own
    connection ID has an entry in the resolved map and the sender is in
    the registry, the sender is sent its own chat message, with its
    labels. *)
Theorem message_reaches_sender {Store} `{!Conn Store} `{!Libs}
    (c : msgkit_Context) (cc : gmap string (list string))
    (places : list string) (w w1 : world Store) :
  connectedClients (message_point c).1 (message_point c).2 w
  = (Ret (inr cc), w1) →
  cc !! ConnID c = Some places →
  ConnID c ∈ conns w →
  sends_to (ConnID c) (added w (message c w)) = [newMsg c places].
Proof.
  intros Hcc Hin Hreg. rewrite (message_sends c cc w w1 _ Hcc), Hin.
  by rewrite decide_True.
Qed.

(** * Further properties *)

(** ** Channel patterns *)

Lemma glob_step (c : ascii) (pattern s : string) :
  Ascii.eqb c "*" = false →
  glob (String c pattern) s
  = match s with
    | String d s' => Ascii.eqb c d && glob pattern s'
    | EmptyString => false
    end.
Proof. intros Hc. cbn [glob]. by rewrite Hc. Qed.

(** A pattern without [*] matches itself only. *)
Lemma glob_literal (pattern s : string) :
  literal pattern = true → glob pattern s = String.eqb pattern s.
Proof.
  revert s. induction pattern as [|c pattern IH]; intros s Hlit.
  - by destruct s.
  - cbn [literal] in Hlit. apply andb_true_iff in Hlit as [Hc Hlit].
    apply negb_true_iff in Hc. rewrite glob_step by done.
    destruct s as [|d s]; [done|]. cbn [String.eqb]. by rewrite IH.
Qed.

(** A literal followed by [*] matches the strings that start with it. *)
Lemma glob_literal_star (pattern s : string) :
  literal pattern = true → glob (pattern +:+ "*") s = String.prefix pattern s.
Proof.
  revert s. induction pattern as [|c pattern IH]; intros s Hlit.
  - by destruct s.
  - cbn [literal] in Hlit. apply andb_true_iff in Hlit as [Hc Hlit].
    apply negb_true_iff in Hc.
    change (String c pattern +:+ "*") with (String c (pattern +:+ "*")).
    rewrite glob_step by done.
    destruct s as [|d s]; [done|]. cbn [String.prefix]. rewrite IH by done.
    destruct (Ascii.eqb_spec c d) as [->|Hne]; destruct (ascii_dec _ _); done.
Qed.

Lemma prefix_append (p s : string) :
  String.prefix p s = true → ∃ rest, s = p +:+ rest.
Proof.
  revert s. induction p as [|c p IH]; intros s.
  - intros _. by exists s.
  - destruct s as [|d s]; [done|]. cbn [String.prefix].
    destruct (ascii_dec c d) as [->|]; [|done].
    intros [rest ->]%IH. by exists rest.
Qed.

(** The subscription delivers the roaming channel and every channel that
    starts with ["viewport:"] or ["place:"], and nothing else. *)
Lemma subscribed_channels (Channel : string) :
  subscribed Channel
  = String.prefix "viewport:" Channel
    || String.eqb "roamchan" Channel
    || String.prefix "place:" Channel.
Proof.
  unfold subscribed, patterns. cbn [existsb].
  change "viewport:*" with ("viewport:" +:+ "*").
  change "place:*" with ("place:" +:+ "*").
  rewrite !glob_literal_star, glob_literal by reflexivity.
  by rewrite orb_false_r, orb_assoc.
Qed.

Lemma Split_nonempty (s : string) (sep : ascii) :
  ∃ piece pieces, Split s sep = piece :: pieces.
Proof.
  induction s as [|c s (piece & pieces & IH)]; simpl.
  - by eexists _, _.
  - destruct (Ascii.eqb c sep); [by eexists _, _|].
    rewrite IH. by eexists _, _.
Qed.

(** A subscribed channel either is broadcast or names a connection. *)
Lemma subscribed_has_target (Channel : string) :
  subscribed Channel = true →
  Contains Channel "viewport" = true →
  is_Some (Split Channel ":" !! 1).
Proof.
  rewrite subscribed_channels. intros Hsub Hcont.
  apply orb_true_iff in Hsub as [Hsub|Hplace].
  - apply orb_true_iff in Hsub as [Hview|Hroam].
    + apply prefix_append in Hview as [rest ->].
      rewrite Split_viewport_channel.
      destruct (Split_nonempty rest ":") as (piece & pieces & ->). by eexists.
    + apply String.eqb_eq in Hroam as <-. discriminate Hcont.
  - apply prefix_append in Hplace as [rest ->].
    change (Split ("place:" +:+ rest) ":")
      with ("place" :: Split rest ":").
    destruct (Split_nonempty rest ":") as (piece & pieces & ->). by eexists.
Qed.

(** ** The relay, event by event *)

Section RelayMore.

Context {Store : Type} `{!Libs}.

Implicit Types (w : world Store) (props : gmap string string).

(** [dispatch] reads the registry only: on any world it does what it does
    on the bare registry, after the trace so far. *)
Lemma dispatch_frame props (v : redis.received) w :
  dispatch props v w
  = ((dispatch_on props (conns w) v).1,
     World (db w) (conns w) (trace w ++ (dispatch_on props (conns w) v).2)).
Proof.
  unfold dispatch_on. destruct v as [Channel Data|k c n|d|f err].
  - destruct (Contains Channel "viewport") eqn:Hc.
    + unfold dispatch. rewrite Hc.
      unfold bind, index, Conns_Get, Send, emit, ret, panic. simpl.
      destruct (Split Channel ":" !! 1) as [id|]; simpl.
      * destruct (decide (id ∈ conns w)); simpl; [done|].
        by rewrite app_nil_r; destruct w.
      * by rewrite app_nil_r; destruct w.
    + by rewrite !dispatch_broadcast.
  - simpl. unfold ret. simpl. by rewrite world_eta.
  - simpl. unfold ret. simpl. by rewrite world_eta.
  - reflexivity.
Qed.

Lemma relayed_on props (v : redis.received) w :
  relayed props v w = (dispatch_on props (conns w) v).2.
Proof. unfold relayed. rewrite dispatch_frame. apply added_app. Qed.

(** [dispatch] only sends and logs. *)
Lemma dispatch_on_quiet props (registry : gset string) (v : redis.received) :
  Forall (λ a, is_lookup a = false ∧ is_subscribe a = false)
         (dispatch_on props registry v).2.
Proof.
  unfold dispatch_on. destruct v as [Channel Data|k c n|d|f err].
  - destruct (Contains Channel "viewport") eqn:Hc.
    + unfold dispatch. rewrite Hc.
      unfold bind, index, Conns_Get, Send, emit, ret, panic. simpl.
      destruct (Split Channel ":" !! 1) as [id|]; simpl; [|constructor].
      destruct (decide (id ∈ registry)); simpl; by repeat constructor.
    + rewrite dispatch_broadcast by done. simpl.
      apply Forall_fmap, Forall_forall. by intros id _.
  - constructor.
  - constructor.
  - by repeat constructor.
Qed.

Lemma dispatch_on_returns props (registry : gset string) (v : redis.received) :
  deliverable v = true → (dispatch_on props registry v).1 = Ret tt.
Proof.
  unfold dispatch_on. destruct v as [Channel Data|k c n|d|f err]; try done.
  cbn [deliverable]. intros Hsub.
  destruct (Contains Channel "viewport") eqn:Hc.
  - destruct (subscribed_has_target Channel Hsub Hc) as [id Hid].
    unfold dispatch. rewrite Hc.
    unfold bind, index, Conns_Get, Send, emit, ret. rewrite Hid. simpl.
    by destruct (decide (id ∈ registry)).
  - by rewrite dispatch_broadcast.
Qed.

Lemma sends_to_concat (id : string) (ls : list (list action)) :
  sends_to id (concat ls) = concat (sends_to id <$> ls).
Proof.
  induction ls as [|l ls IH]; [done|].
  cbn [concat]. rewrite fmap_cons. cbn [concat].
  by rewrite sends_to_app, IH.
Qed.

Lemma commands_app (t1 t2 : list action) :
  commands (t1 ++ t2) = commands t1 ++ commands t2.
Proof. apply omap_app. Qed.

Lemma quiet_no_commands (acts : list action) :
  Forall (λ a, is_lookup a = false ∧ is_subscribe a = false) acts →
  commands acts = [] ∧ subscriptions acts = 0.
Proof.
  induction 1 as [|a acts [Ha1 Ha2] _ [IH1 IH2]]; [done|].
  destruct a; try done.
Qed.

(** The receive loop on deliverable events: it stays in the loop, and
    the trace grows by what each event relays, in order. *)
Lemma receive_loop_run props (evs : list redis.received) w :
  forallb deliverable evs = true →
  receive_loop props evs w
  = (Ret Receiving,
     World (db w) (conns w)
       (trace w ++ concat ((λ v, (dispatch_on props (conns w) v).2) <$> evs))).
Proof.
  revert w. induction evs as [|v evs IH]; intros w Hall.
  - simpl. unfold ret. by rewrite world_eta.
  - cbn [forallb] in Hall. apply andb_true_iff in Hall as [Hv Hall].
    cbn [receive_loop]. unfold bind at 1. rewrite dispatch_frame.
    rewrite dispatch_on_returns by done. cbn [fst].
    rewrite IH by done. cbn [db conns trace].
    rewrite fmap_cons. cbn [concat]. by rewrite <- app_assoc.
Qed.

(** Whatever is received, the loop leaves Tile38 and the registry alone
    and only sends and logs. *)
Lemma receive_loop_quiet_all props (evs : list redis.received) w :
  ∃ acts, (receive_loop props evs w).2
          = World (db w) (conns w) (trace w ++ acts)
          ∧ Forall (λ a, is_lookup a = false ∧ is_subscribe a = false) acts.
Proof.
  revert w. induction evs as [|v evs IH]; intros w.
  - exists []. simpl. by rewrite world_eta.
  - cbn [receive_loop]. unfold bind at 1. rewrite dispatch_frame.
    pose proof (dispatch_on_quiet props (conns w) v) as Hq.
    destruct (dispatch_on props (conns w) v) as [[[]|why] a1]; cbn [fst snd] in *.
    + destruct (IH (World (db w) (conns w) (trace w ++ a1))) as (a2 & E2 & Q2).
      exists (a1 ++ a2). rewrite E2. cbn [db conns trace].
      rewrite <- app_assoc. split; [done|]. by apply Forall_app.
    + by exists a1.
Qed.

End RelayMore.

(** X1: on every event the subscription can deliver (a message on the
    roaming channel, on a ["viewport:"] or on a ["place:"] channel, or
    anything that is not a message) [dispatch] returns: the index into
    the split channel name is never out of range there. *)
Theorem dispatch_returns_on_subscribed {Store} `{!Libs}
    (props : gmap string string) (v : redis.received) (w : world Store) :
  deliverable v = true → (dispatch props v w).1 = Ret tt.
Proof.
  intros Hv. rewrite dispatch_frame. cbn [fst].
  by apply dispatch_on_returns.
Qed.

(** X2: events are relayed in the order received.  On deliverable events
    the receive loop stays in the loop, and what a connection is sent
    over the whole sequence is what it is sent for the first event,
    followed by what it is sent for the second, and so on. *)
Theorem relay_keeps_order {Store} `{!Libs}
    (props : gmap string string) (evs : list redis.received)
    (w : world Store) (id : string) :
  forallb deliverable evs = true →
  (receive_loop props evs w).1 = Ret Receiving
  ∧ sends_to id (added w (receive_loop props evs w))
    = concat ((λ v, sends_to id (relayed props v w)) <$> evs).
Proof.
  intros Hall. rewrite receive_loop_run by done. split; [done|].
  rewrite added_app, sends_to_concat, <- list_fmap_compose.
  f_equal. apply list_fmap_ext. intros i v _. simpl. by rewrite relayed_on.
Qed.

(** X3: the relay never writes.  Whatever is received, and whether or not
    the loop panics on it, the receive loop issues no backend command,
    leaves the backend store and the registry as they are, and does not
    subscribe again. *)
Theorem relay_never_writes {Store} `{!Libs}
    (props : gmap string string) (evs : list redis.received) (w : world Store) :
  db (receive_loop props evs w).2 = db w
  ∧ conns (receive_loop props evs w).2 = conns w
  ∧ commands (added w (receive_loop props evs w)) = []
  ∧ subscriptions (added w (receive_loop props evs w)) = 0.
Proof.
  destruct (receive_loop_quiet_all props evs w) as (acts & E & Q).
  unfold added. rewrite E. cbn [db conns trace].
  rewrite drop_app_length. split; [done|]. split; [done|].
  by apply quiet_no_commands.
Qed.

(** ** The aggregator and the handlers at their edges *)

Section HandlersMore.

Context {Store : Type} `{!Conn Store} `{!Libs}.

Implicit Types (w : world Store).

Lemma lookups_agree_lookups {A} (o : outcome (error + A)) (acts : list action) :
  lookups_agree o acts → Forall (λ a, is_lookup a = true) acts.
Proof.
  assert (Hans : ∀ l, Forall answered l → Forall (λ a, is_lookup a = true) l).
  { intros l Hl. eapply Forall_impl; [exact Hl|]. by intros []. }
  destruct o as [[err|v]|why]; simpl; try apply Hans.
  intros (acts0 & a & -> & Hok & Hf). apply Forall_app. split; [by apply Hans|].
  repeat constructor. by destruct a.
Qed.

Lemma lookups_no_log (acts : list action) :
  Forall (λ a, is_lookup a = true) acts → logged acts = [].
Proof. induction 1 as [|a acts Ha _ IH]; [done|]. by destruct a. Qed.

Lemma lookups_no_send (cid : string) (acts : list action) :
  Forall (λ a, is_lookup a = true) acts → sends_to cid acts = [].
Proof. induction 1 as [|a acts Ha _ IH]; [done|]. by destruct a. Qed.

Lemma logged_app (t1 t2 : list action) :
  logged (t1 ++ t2) = logged t1 ++ logged t2.
Proof. apply omap_app. Qed.

(** The start of a resolution whose place search has fewer than two
    elements: the loop over the places is skipped. *)
Lemma connectedClients_skip_places (x y : float64) (r : result)
    (placeRes : list reply) w :
  Do ("INTERSECTS", places_query x y) (db w) = (r, db w) →
  redis.Values r = (placeRes, None) →
  (length placeRes ≤ 1)%nat →
  connectedClients x y w
  = (let* r3 := redisDo "NEARBY" (nearby_query x y) in
     match redis.Values r3 with
     | (_, Some err) => ret (inl err)
     | (nearbyRes, None) =>
         let* e := index nearbyRes 1 in
         ret (inr (label_all ∅ (redis.Strings (e, None)).1 "roaming"))
     end)
      (World (db w) (conns w)
         (trace w ++ [ADo ("INTERSECTS", places_query x y) r])).
Proof.
  intros Hdo HV Hlen. unfold connectedClients.
  unfold bind at 1. unfold redisDo at 1. rewrite Hdo, HV.
  assert (Nat.ltb 1 (length placeRes) = false) as ->
    by (apply Nat.ltb_ge; lia).
  reflexivity.
Qed.

(** The places are pushed to the connection that opened, and to nobody
    else. *)
Lemma push_places_own (connID : string) (ps : list reply) w o w' :
  forRange ps (λ p, let kv := (redis.ByteSlices (p, None)).1 in
                    let* v := index kv 1 in
                    Send connID v) w = (o, w') →
  ∃ acts, w' = World (db w) (conns w) (trace w ++ acts)
          ∧ Forall (λ a, ∃ msg, a = ASend connID msg) acts.
Proof.
  revert w. induction ps as [|p ps IH]; intros w Hrun.
  - injection Hrun as <- <-. exists []. by rewrite world_eta.
  - cbn [forRange] in Hrun. unfold bind at 1 in Hrun.
    unfold bind at 1 in Hrun. unfold index in Hrun.
    destruct ((redis.ByteSlices (p, None)).1 !! 1) as [v|].
    + unfold ret, Send, emit in Hrun.
      apply IH in Hrun as (acts & -> & Hall). cbn [db conns trace].
      exists (ASend connID v :: acts). rewrite <- app_assoc. split; [done|].
      constructor; [by eexists|done].
    + injection Hrun as <- <-. exists []. by rewrite world_eta.
Qed.

Lemma connectedClients_nearby_only (x y : float64) (r : result)
    (placeRes : list reply) (nearby : list string) (cursor : Z) w :
  Do ("INTERSECTS", places_query x y) (db w) = (r, db w) →
  redis.Values r = (placeRes, None) →
  (length placeRes ≤ 1)%nat →
  Do ("NEARBY", nearby_query x y) (db w) = ((ids_reply cursor nearby, None), db w) →
  connectedClients x y w
  = (Ret (inr (label_all ∅ nearby "roaming")),
     World (db w) (conns w)
       (trace w ++ [ADo ("INTERSECTS", places_query x y) r;
                    ADo ("NEARBY", nearby_query x y)
                        (ids_reply cursor nearby, None)])).
Proof.
  intros Hdo HV Hlen Hnear.
  rewrite (connectedClients_skip_places x y r placeRes w Hdo HV Hlen).
  unfold bind at 1. unfold redisDo. cbn [db conns trace].
  rewrite Hnear. rewrite Values_ids_reply.
  unfold bind, index, ret. cbn [lookup list_lookup]. rewrite Strings_ids.
  cbn [fst snd]. by rewrite <- app_assoc.
Qed.

Lemma message_failed_run (c : msgkit_Context) (err : error) w w1 :
  connectedClients (message_point c).1 (message_point c).2 w
  = (Ret (inl err), w1) →
  message c w
  = (Ret tt, World (db w1) (conns w1)
               (trace w1 ++ [ALog ("connectedClients: " +:+ err)])).
Proof.
  intros Hcc. unfold message. unfold bind at 1.
  unfold message_point in Hcc. cbn [fst snd] in Hcc. by rewrite Hcc.
Qed.

Lemma onOpen_failed_run (connID : string) (r : result) (s' : Store)
    (vals : list reply) (err : error) w :
  Do ("SCAN", [AStr "places"]) (db w) = (r, s') →
  redis.Values r = (vals, Some err) →
  onOpen connID w
  = (Ret tt, World s' (conns w)
               (trace w ++ [ASend connID (id_message connID);
                            ADo ("SCAN", [AStr "places"]) r;
                            ALog ("onOpen: " +:+ err)])).
Proof.
  intros Hdo HV. unfold onOpen. unfold bind at 1. unfold Send at 1, emit.
  unfold bind at 1. unfold redisDo. cbn [db conns trace]. rewrite Hdo, HV.
  unfold log, emit. cbn [db conns trace]. by rewrite <- !app_assoc.
Qed.

Lemma onOpen_short_run (connID : string) (r : result) (s' : Store)
    (vals : list reply) w :
  Do ("SCAN", [AStr "places"]) (db w) = (r, s') →
  redis.Values r = (vals, None) →
  (length vals ≤ 1)%nat →
  onOpen connID w
  = (Ret tt, World s' (conns w)
               (trace w ++ [ASend connID (id_message connID);
                            ADo ("SCAN", [AStr "places"]) r])).
Proof.
  intros Hdo HV Hlen. unfold onOpen. unfold bind at 1. unfold Send at 1, emit.
  unfold bind at 1. unfold redisDo. cbn [db conns trace]. rewrite Hdo, HV.
  assert (Nat.ltb 1 (length vals) = false) as -> by (apply Nat.ltb_ge; lia).
  unfold ret. by rewrite <- !app_assoc.
Qed.

(** What [onOpen] does, however it ends: the ID message, the scan, and
    then only sends to its own connection or a log line. *)
Lemma onOpen_shape (connID : string) w o w' :
  onOpen connID w = (o, w') →
  ∃ r acts,
    trace w' = trace w ++ ASend connID (id_message connID)
                       :: ADo ("SCAN", [AStr "places"]) r :: acts
    ∧ Forall (λ a, (∃ msg, a = ASend connID msg) ∨ (∃ line, a = ALog line)) acts.
Proof.
  unfold onOpen. unfold bind at 1. unfold Send at 1, emit.
  unfold bind at 1. unfold redisDo. cbn [db conns trace].
  destruct (Do ("SCAN", [AStr "places"]) (db w)) as [r s].
  intros Hrun. exists r.
  destruct (redis.Values r) as [places [err|]].
  - injection Hrun as <- <-. eexists [_]. cbn [trace].
    rewrite <- !app_assoc. split; [done|].
    constructor; [right; by eexists|constructor].
  - destruct (Nat.ltb 1 (length places)).
    + unfold bind at 1 in Hrun. unfold index in Hrun.
      destruct (places !! 1) as [e|].
      * unfold ret at 1 in Hrun.
        apply push_places_own in Hrun as (acts & -> & Hall).
        exists acts. cbn [trace]. rewrite <- !app_assoc. split; [done|].
        eapply Forall_impl; [exact Hall|]. intros a Ha. by left.
      * injection Hrun as <- <-. exists []. cbn [trace].
        rewrite <- !app_assoc. split; [done|]. constructor.
    + injection Hrun as <- <-. exists []. cbn [trace].
      rewrite <- !app_assoc. split; [done|]. constructor.
Qed.

End HandlersMore.

(** X4: a resolution only looks things up.  Whatever the backend
    answers, and however the resolution ends, [connectedClients] leaves
    the registry as it is, and all it does is send commands to the
    backend: nothing is sent to any connection and nothing is logged. *)
Theorem resolution_only_looks_up {Store} `{!Conn Store} `{!Libs}
    (x y : float64) (w : world Store) :
  conns (connectedClients x y w).2 = conns w
  ∧ Forall (λ a, is_lookup a = true) (added w (connectedClients x y w))
  ∧ (∀ cid, sends_to cid (added w (connectedClients x y w)) = [])
  ∧ logged (added w (connectedClients x y w)) = [].
Proof.
  destruct (connectedClients x y w) as [o w'] eqn:Hrun.
  apply connectedClients_outcome in Hrun as (acts & Hc & Ht & Hv).
  unfold added. cbn [snd]. rewrite Ht, drop_app_length.
  apply lookups_agree_lookups in Hv.
  split; [done|]. split; [done|]. split.
  - intros cid. by apply lookups_no_send.
  - by apply lookups_no_log.
Qed.

(** X5: the guard on the place search.  When the place search is
    answered with an array of fewer than two elements, no region is
    searched for people: only the nearby search follows, and the result
    holds the nearby people alone, each labelled ["roaming"] once per
    occurrence. *)
Theorem resolution_without_places {Store} `{!Conn Store} `{!Libs}
    (x y : float64) (r : result) (placeRes : list reply)
    (nearby : list string) (w : world Store) :
  Do ("INTERSECTS", places_query x y) (db w) = (r, db w) →
  redis.Values r = (placeRes, None) →
  (length placeRes ≤ 1)%nat →
  answers (db w) ("NEARBY", nearby_query x y) nearby →
  ∃ idMap,
    (connectedClients x y w).1 = Ret (inr idMap)
    ∧ commands (added w (connectedClients x y w))
      = [("INTERSECTS", places_query x y); ("NEARBY", nearby_query x y)]
    ∧ (∀ p, is_Some (idMap !! p) ↔ p ∈ nearby)
    ∧ (∀ p, default [] (idMap !! p) = roaming_labels p nearby).
Proof.
  intros Hdo HV Hlen [cursor Hnear].
  rewrite (connectedClients_nearby_only x y r placeRes nearby cursor w)
    by done.
  rewrite added_app. cbn [fst].
  eexists. split; [reflexivity|]. split; [reflexivity|]. split.
  - intros p. rewrite label_all_is_Some, lookup_empty.
    split; [intros [[? ?]|?]; done|by right].
  - intros p. rewrite label_all_labels. by rewrite lookup_empty.
Qed.

Section ShortReplies.

Context {Store : Type} `{!Conn Store} `{!Libs}.

Implicit Types (w : world Store).

(** A lookup that failed, or whose reply has a second element, is not a
    short reply. *)
Lemma failed_not_short (x y : float64) (cmd : command) (r : result)
    (vals : list reply) (err : error) :
  redis.Values r = (vals, Some err) → ¬ short_people_reply x y (ADo cmd r).
Proof.
  intros HV (cmd' & r' & vals' & [= <- <-] & _ & HV' & _). congruence.
Qed.

Lemma long_not_short (x y : float64) (cmd : command) (r : result)
    (vals : list reply) (e : reply) :
  redis.Values r = (vals, None) → vals !! 1 = Some e →
  ¬ short_people_reply x y (ADo cmd r).
Proof.
  intros HV He (cmd' & r' & vals' & [= <- <-] & _ & HV' & Hlen).
  rewrite HV in HV'. injection HV' as <-.
  apply lookup_lt_Some in He. lia.
Qed.

Lemma places_not_short (x y : float64) (r : result) :
  ¬ short_people_reply x y (ADo ("INTERSECTS", places_query x y) r).
Proof.
  intros (cmd & r' & vals & [= <- <-] & [Hcmd|[placeID Hcmd]] & _);
    discriminate Hcmd.
Qed.

(** The loop over the places either panics on an index or has met no
    short reply. *)
Lemma people_in_places_short (x y : float64) (placeIDs : list string)
    (m : gmap string (list string)) w o w' :
  people_in_places placeIDs m w = (o, w') →
  ∃ acts, trace w' = trace w ++ acts
          ∧ (o = Panic "index out of range"
             ∨ Forall (λ a, ¬ short_people_reply x y a) acts).
Proof.
  revert m w. induction placeIDs as [|placeID placeIDs IH]; intros m w Hrun.
  - injection Hrun as <- <-. exists []. rewrite app_nil_r.
    split; [done|]. right. constructor.
  - cbn [people_in_places] in Hrun. unfold bind at 1 in Hrun.
    unfold redisDo in Hrun.
    destruct (Do ("INTERSECTS", people_query placeID) (db w)) as [r s].
    destruct (redis.Values r) as [peopleRes [err|]] eqn:HV.
    + injection Hrun as <- <-. eexists [_]. split; [done|]. right.
      constructor; [|constructor]. by eapply failed_not_short.
    + unfold bind at 1 in Hrun. unfold index in Hrun.
      destruct (peopleRes !! 1) as [e|] eqn:He.
      * unfold ret at 1 in Hrun.
        apply IH in Hrun as (acts & Ht & Hcases). cbn [trace] in Ht.
        exists (ADo ("INTERSECTS", people_query placeID) r :: acts).
        rewrite Ht, <- app_assoc. split; [done|].
        destruct Hcases as [->|Hall]; [by left|right].
        constructor; [|done]. by eapply long_not_short.
      * injection Hrun as <- <-. eexists [_]. split; [done|]. by left.
Qed.

Lemma connectedClients_short (x y : float64) w o w' :
  connectedClients x y w = (o, w') →
  ∃ acts, trace w' = trace w ++ acts
          ∧ (o = Panic "index out of range"
             ∨ Forall (λ a, ¬ short_people_reply x y a) acts).
Proof.
  unfold connectedClients. unfold bind at 1. unfold redisDo at 1.
  destruct (Do ("INTERSECTS", places_query x y) (db w)) as [r1 s1].
  set (a1 := ADo ("INTERSECTS", places_query x y) r1).
  assert (Ha1 : ¬ short_people_reply x y a1) by apply places_not_short.
  destruct (redis.Values r1) as [placeRes [err|]].
  { intros Hrun. injection Hrun as <- <-. exists [a1]. split; [done|].
    right. by repeat constructor. }
  set (w1 := World s1 (conns w) (trace w ++ [a1])).
  unfold bind at 1.
  destruct ((if Nat.ltb 1 (length placeRes)
             then let* e := index placeRes 1 in
                  people_in_places (redis.Strings (e, None)).1 ∅
             else ret (inr ∅)) w1) as [o2 w2] eqn:Hregions.
  assert (∃ acts, trace w2 = trace w1 ++ acts
                  ∧ (o2 = Panic "index out of range"
                     ∨ Forall (λ a, ¬ short_people_reply x y a) acts))
    as (acts2 & Ht2 & Hcases2).
  { destruct (Nat.ltb 1 (length placeRes)).
    - unfold bind, index in Hregions. destruct (placeRes !! 1) as [e|].
      + unfold ret at 1 in Hregions.
        by apply (people_in_places_short x y) in Hregions.
      + injection Hregions as <- <-. exists []. rewrite app_nil_r.
        split; [done|]. by left.
    - injection Hregions as <- <-. exists []. rewrite app_nil_r.
      split; [done|]. right. constructor. }
  unfold w1 in Ht2. cbn [trace] in Ht2.
  destruct o2 as [[err|idMap]|why].
  - intros Hrun. injection Hrun as <- <-. exists (a1 :: acts2).
    rewrite Ht2, <- app_assoc. split; [done|].
    destruct Hcases2 as [?|Hall]; [done|]. right. by constructor.
  - destruct Hcases2 as [?|Hall2]; [done|].
    unfold bind at 1. unfold redisDo.
    destruct (Do ("NEARBY", nearby_query x y) (db w2)) as [r3 s3].
    set (a3 := ADo ("NEARBY", nearby_query x y) r3).
    assert (Htrace : (trace w2 ++ [a3]) = trace w ++ (a1 :: acts2) ++ [a3]).
    { rewrite Ht2. by rewrite <- !app_assoc. }
    destruct (redis.Values r3) as [nearbyRes [err|]] eqn:HV3.
    + intros Hrun. injection Hrun as <- <-. eexists. split; [exact Htrace|].
      right. apply Forall_app. split; [by constructor|].
      constructor; [|constructor]. by eapply failed_not_short.
    + unfold bind, index. destruct (nearbyRes !! 1) as [e|] eqn:He.
      * intros Hrun. injection Hrun as <- <-. eexists. split; [exact Htrace|].
        right. apply Forall_app. split; [by constructor|].
        constructor; [|constructor]. by eapply long_not_short.
      * intros Hrun. injection Hrun as <- <-. eexists. split; [exact Htrace|].
        by left.
  - intros Hrun. injection Hrun as <- <-. exists (a1 :: acts2).
    rewrite Ht2, <- app_assoc. split; [done|].
    destruct Hcases2 as [->|Hall]; [by left|]. right. by constructor.
Qed.

End ShortReplies.

(** X6: the searches for people are not guarded.  Whenever a lookup of
    the run that searches for people (the people of any found place, or
    the people nearby) is answered without error by an array of fewer
    than two elements, [connectedClients] panics on the index
    ([peopleRes[1]], [nearbyRes[1]]), wherever in the run that lookup
    comes and whatever was answered before it. *)
Theorem resolution_panics_on_short_reply {Store} `{!Conn Store} `{!Libs}
    (x y : float64) (w : world Store) (a : action) :
  a ∈ added w (connectedClients x y w) →
  short_people_reply x y a →
  (connectedClients x y w).1 = Panic "index out of range".
Proof.
  intros Hin Hshort.
  destruct (connectedClients x y w) as [o w'] eqn:Hrun.
  apply connectedClients_short in Hrun as (acts & Ht & [->|Hall]); [done|].
  unfold added in Hin. cbn [snd] in Hin. rewrite Ht, drop_app_length in Hin.
  rewrite Forall_forall in Hall. by destruct (Hall a Hin).
Qed.

(** X7: a chat message whose resolution fails reaches nobody.  When
    [connectedClients] returns an error, [message] returns normally,
    logs that one error and sends nothing to any connection, the sender
    included. *)
Theorem message_logs_failed_resolution {Store} `{!Conn Store} `{!Libs}
    (c : msgkit_Context) (err : error) (w w1 : world Store) :
  connectedClients (message_point c).1 (message_point c).2 w
  = (Ret (inl err), w1) →
  (message c w).1 = Ret tt
  ∧ logged (added w (message c w)) = ["connectedClients: " +:+ err]
  ∧ ∀ cid, sends_to cid (added w (message c w)) = [].
Proof.
  intros Hcc. rewrite (message_failed_run c err w w1 Hcc).
  apply connectedClients_outcome in Hcc as (acts & Hc & Ht & Hv).
  apply lookups_agree_lookups in Hv.
  unfold added. cbn [fst snd trace].
  rewrite Ht, <- app_assoc, drop_app_length.
  split; [done|]. split.
  - by rewrite logged_app, (lookups_no_log _ Hv).
  - intros cid. by rewrite sends_to_app, (lookups_no_send _ _ Hv).
Qed.

(** X8: a new connection whose places cannot be fetched still gets its
    ID.  When [SCAN places] fails, [onOpen] has sent the ID message,
    logs the error and returns; when the reply is an array of fewer than
    two elements it returns after the ID message without a word.  In
    both cases no place is pushed and the client is told nothing of the
    failure. *)
Theorem onOpen_without_places {Store} `{!Conn Store} `{!Libs}
    (connID : string) (r : result) (s' : Store) (w : world Store) :
  Do ("SCAN", [AStr "places"]) (db w) = (r, s') →
  (∀ vals err,
     redis.Values r = (vals, Some err) →
     (onOpen connID w).1 = Ret tt
     ∧ added w (onOpen connID w)
       = [ASend connID (id_message connID);
          ADo ("SCAN", [AStr "places"]) r;
          ALog ("onOpen: " +:+ err)])
  ∧ (∀ vals,
       redis.Values r = (vals, None) → (length vals ≤ 1)%nat →
       (onOpen connID w).1 = Ret tt
       ∧ added w (onOpen connID w)
         = [ASend connID (id_message connID);
            ADo ("SCAN", [AStr "places"]) r]).
Proof.
  intros Hdo. split.
  - intros vals err HV.
    rewrite (onOpen_failed_run connID r s' vals err w Hdo HV).
    by rewrite added_app.
  - intros vals HV Hlen.
    rewrite (onOpen_short_run connID r s' vals w Hdo HV Hlen).
    by rewrite added_app.
Qed.

(** X9: [onOpen] talks to its own client only.  Whatever the backend
    answers and however [onOpen] ends, it sends nothing to any other
    connection, and the one command it sends to the backend is
    [SCAN places]. *)
Theorem onOpen_serves_its_client_only {Store} `{!Conn Store} `{!Libs}
    (connID other : string) (w : world Store) :
  other ≠ connID →
  sends_to other (added w (onOpen connID w)) = []
  ∧ commands (added w (onOpen connID w)) = [("SCAN", [AStr "places"])].
Proof.
  intros Hne.
  destruct (onOpen connID w) as [o w'] eqn:Hrun.
  apply onOpen_shape in Hrun as (r & acts & Ht & Hall).
  unfold added. cbn [snd]. rewrite Ht, drop_app_length.
  change (ASend connID (id_message connID)
            :: ADo ("SCAN", [AStr "places"]) r :: acts)
    with ([ASend connID (id_message connID)]
            ++ [ADo ("SCAN", [AStr "places"]) r] ++ acts).
  rewrite !sends_to_app, !commands_app, sends_to_other by done.
  cbn [app]. clear Ht.
  induction Hall as [|a acts [[msg ->]|[line ->]] _ [IH1 IH2]]; [done| |done].
  split; [|done].
  change (ASend connID msg :: acts) with ([ASend connID msg] ++ acts).
  rewrite !sends_to_app in *. rewrite sends_to_other by done. exact IH1.
Qed.

(** ** What the chat path sends to the backend *)

Section ReadsMore.

Context {Store : Type} `{!Conn Store} `{!Libs}.

Implicit Types (w : world Store).

Lemma people_in_places_searches (placeIDs : list string)
    (m : gmap string (list string)) w o w' :
  people_in_places placeIDs m w = (o, w') →
  ∃ acts, trace w' = trace w ++ acts
          ∧ Forall (λ cmd, searching cmd = true) (commands acts).
Proof.
  revert m w. induction placeIDs as [|placeID placeIDs IH]; intros m w Hrun.
  - injection Hrun as <- <-. exists []. rewrite app_nil_r. by split.
  - cbn [people_in_places] in Hrun. unfold bind at 1 in Hrun.
    unfold redisDo in Hrun.
    destruct (Do ("INTERSECTS", people_query placeID) (db w)) as [r s].
    destruct (redis.Values r) as [peopleRes [err|]].
    + injection Hrun as <- <-. eexists [_]. split; [done|].
      by repeat constructor.
    + unfold bind at 1 in Hrun. unfold index in Hrun.
      destruct (peopleRes !! 1) as [e|].
      * unfold ret at 1 in Hrun.
        apply IH in Hrun as (acts & Ht & Hall). cbn [trace] in Ht.
        exists (ADo ("INTERSECTS", people_query placeID) r :: acts).
        rewrite Ht, <- app_assoc. split; [done|]. by constructor.
      * injection Hrun as <- <-. eexists [_]. split; [done|].
        by repeat constructor.
Qed.

Lemma connectedClients_searches (x y : float64) w o w' :
  connectedClients x y w = (o, w') →
  ∃ acts, trace w' = trace w ++ acts
          ∧ Forall (λ cmd, searching cmd = true) (commands acts).
Proof.
  unfold connectedClients. unfold bind at 1. unfold redisDo at 1.
  destruct (Do ("INTERSECTS", places_query x y) (db w)) as [r1 s1].
  set (a1 := ADo ("INTERSECTS", places_query x y) r1).
  destruct (redis.Values r1) as [placeRes [err|]].
  { intros Hrun. injection Hrun as <- <-. exists [a1]. split; [done|].
    by repeat constructor. }
  set (w1 := World s1 (conns w) (trace w ++ [a1])).
  unfold bind at 1.
  destruct ((if Nat.ltb 1 (length placeRes)
             then let* e := index placeRes 1 in
                  people_in_places (redis.Strings (e, None)).1 ∅
             else ret (inr ∅)) w1) as [o2 w2] eqn:Hregions.
  assert (∃ acts, trace w2 = trace w1 ++ acts
                  ∧ Forall (λ cmd, searching cmd = true) (commands acts))
    as (acts2 & Ht2 & Hall2).
  { destruct (Nat.ltb 1 (length placeRes)).
    - unfold bind, index in Hregions. destruct (placeRes !! 1) as [e|].
      + unfold ret at 1 in Hregions.
        by apply people_in_places_searches in Hregions.
      + injection Hregions as <- <-. exists []. rewrite app_nil_r. by split.
    - injection Hregions as <- <-. exists []. rewrite app_nil_r. by split. }
  unfold w1 in Ht2. cbn [trace] in Ht2.
  assert (Hsofar : Forall (λ cmd, searching cmd = true)
                     (commands (a1 :: acts2))) by (by constructor).
  destruct o2 as [[err|idMap]|why].
  - intros Hrun. injection Hrun as <- <-. exists (a1 :: acts2).
    rewrite Ht2, <- app_assoc. by split.
  - unfold bind at 1. unfold redisDo.
    destruct (Do ("NEARBY", nearby_query x y) (db w2)) as [r3 s3].
    set (a3 := ADo ("NEARBY", nearby_query x y) r3).
    assert (Hall : Forall (λ cmd, searching cmd = true)
                     (commands ((a1 :: acts2) ++ [a3]))).
    { rewrite commands_app. apply Forall_app. split; [done|].
      by repeat constructor. }
    assert (Htrace : (trace w2 ++ [a3]) = trace w ++ (a1 :: acts2) ++ [a3]).
    { rewrite Ht2. by rewrite <- !app_assoc. }
    destruct (redis.Values r3) as [nearbyRes [err|]].
    + intros Hrun. injection Hrun as <- <-. by eexists.
    + unfold bind, index. destruct (nearbyRes !! 1) as [e|].
      * intros Hrun. injection Hrun as <- <-. by eexists.
      * intros Hrun. injection Hrun as <- <-. by eexists.
  - intros Hrun. injection Hrun as <- <-. exists (a1 :: acts2).
    rewrite Ht2, <- app_assoc. by split.
Qed.

Lemma deliveries_no_commands (c : msgkit_Context) (registry : gset string)
    (entries : list (string * list string)) :
  commands (deliveries c registry entries) = [].
Proof.
  induction entries as [|entry entries IH]; [done|].
  unfold deliveries in *. cbn [flat_map]. rewrite commands_app, IH.
  by destruct (decide (entry.1 ∈ registry)).
Qed.

End ReadsMore.

(** X16: a chat message never writes to the backend.  Whatever Tile38
    answers and however the handler ends, every command that [message]
    sends is an [INTERSECTS] or a [NEARBY] search. *)
Theorem chat_never_writes {Store} `{!Conn Store} `{!Libs}
    (c : msgkit_Context) (w : world Store) :
  Forall (λ cmd, searching cmd = true) (commands (added w (message c w))).
Proof.
  unfold message. unfold bind at 1.
  destruct (connectedClients
              (gjson_Float (gjson_String (Message c) "feature")
                 "geometry.coordinates.0")
              (gjson_Float (gjson_String (Message c) "feature")
                 "geometry.coordinates.1") w) as [o w1] eqn:Hcc.
  apply connectedClients_searches in Hcc as (acts & Ht & Hall).
  destruct o as [[err|cc]|why].
  - unfold log, emit, added. cbn [snd trace].
    rewrite Ht, <- app_assoc, drop_app_length, commands_app.
    apply Forall_app. by split.
  - rewrite deliver_all. unfold added. cbn [snd trace].
    rewrite Ht, <- app_assoc, drop_app_length, commands_app.
    rewrite deliveries_no_commands, app_nil_r. done.
  - unfold added. cbn [snd]. by rewrite Ht, drop_app_length.
Qed.

(** X15: with the table [main] builds, the relay changes no payload.
    No channel the subscription delivers is a key of that table, so on
    every such channel the message is relayed exactly as it would be
    with an empty table, the payload unchanged. *)
Theorem relay_is_verbatim {Store} `{!Libs}
    (Channel Data : string) (w : world Store) :
  subscribed Channel = true →
  decorate main_props Channel Data = Data
  ∧ dispatch main_props (redis.Message Channel Data) w
    = dispatch ∅ (redis.Message Channel Data) w.
Proof.
  intros Hsub.
  assert (Hmiss : main_props !! Channel = None).
  { apply main_props_lookup; intros ->; discriminate Hsub. }
  assert (Hdec : ∀ msg, decorate main_props Channel msg
                        = decorate ∅ Channel msg).
  { intros msg. unfold decorate. by rewrite Hmiss, lookup_empty. }
  split.
  - unfold decorate. by rewrite Hmiss.
  - unfold dispatch. by rewrite Hdec.
Qed.

(** ** The handlers on the Tile38 store *)

Section StoreMore.

Context `{!Libs}.

Implicit Types (w : world Tile38.store).

Lemma feature_Tile38 (c : msgkit_Context) w :
  feature c w
  = (Ret tt,
     World (Tile38.Store (<[("people", ConnID c) := Message c]>
                            (Tile38.objects (db w)))
              (Tile38.channels (db w)))
       (conns w)
       (trace w ++ [ADo ("SET", [AStr "people"; AStr (ConnID c); AStr "EX";
                                 AInt 5; AStr "OBJECT"; AStr (Message c)])
                        Tile38.ok])).
Proof. reflexivity. Qed.

Lemma viewport_Tile38 (c : msgkit_Context) w :
  ∃ cmd,
    viewport c w
    = (Ret tt,
       World (Tile38.Store (Tile38.objects (db w))
                (<["viewport:" +:+ ConnID c := viewport_fence (Message c)]>
                   (Tile38.channels (db w))))
         (conns w)
         (trace w ++ [ADo cmd Tile38.ok])).
Proof. eexists. reflexivity. Qed.

(** One update of a connection on the store. *)
Lemma handle_Tile38 (connID : string) (u : update) w :
  ∃ cmd,
    handle connID u w
    = (Ret tt,
       World (match u with
              | Feature msg =>
                  Tile38.Store (<[("people", connID) := msg]>
                                  (Tile38.objects (db w)))
                    (Tile38.channels (db w))
              | Viewport msg =>
                  Tile38.Store (Tile38.objects (db w))
                    (<["viewport:" +:+ connID := viewport_fence msg]>
                       (Tile38.channels (db w)))
              end)
         (conns w) (trace w ++ [ADo cmd Tile38.ok])).
Proof.
  destruct u as [msg|msg].
  - eexists. apply (feature_Tile38 {| ConnID := connID; Message := msg |}).
  - apply (viewport_Tile38 {| ConnID := connID; Message := msg |}).
Qed.

Lemma session_cons (connID : string) (u : update) (updates : list update) w :
  ∃ cmd,
    session connID (u :: updates) w
    = session connID updates
        (World (match u with
                | Feature msg =>
                    Tile38.Store (<[("people", connID) := msg]>
                                    (Tile38.objects (db w)))
                      (Tile38.channels (db w))
                | Viewport msg =>
                    Tile38.Store (Tile38.objects (db w))
                      (<["viewport:" +:+ connID := viewport_fence msg]>
                         (Tile38.channels (db w)))
                end)
           (conns w) (trace w ++ [ADo cmd Tile38.ok])).
Proof.
  destruct (handle_Tile38 connID u w) as [cmd Hu]. exists cmd.
  unfold session. cbn [forRange]. unfold bind at 1. by rewrite Hu.
Qed.

(** A session returns and keeps the registry. *)
Lemma session_returns (connID : string) (updates : list update) w :
  (session connID updates w).1 = Ret tt
  ∧ conns (session connID updates w).2 = conns w.
Proof.
  revert w. induction updates as [|u updates IH]; intros w; [done|].
  destruct (session_cons connID u updates w) as [cmd ->].
  match goal with |- context [session connID updates ?w'] =>
    destruct (IH w') as [-> ->] end.
  done.
Qed.

(** A session writes under the connection's own two keys only. *)
Lemma session_store (connID : string) (updates : list update) w :
  (∀ key, key ≠ ("people", connID) →
          Tile38.objects (db (session connID updates w).2) !! key
          = Tile38.objects (db w) !! key)
  ∧ (∀ name, name ≠ "viewport:" +:+ connID →
             Tile38.channels (db (session connID updates w).2) !! name
             = Tile38.channels (db w) !! name).
Proof.
  revert w. induction updates as [|u updates IH]; intros w; [done|].
  destruct (session_cons connID u updates w) as [cmd ->].
  match goal with |- context [session connID updates ?w'] =>
    destruct (IH w') as (Hobj & Hchan) end.
  cbn [db] in *. split.
  - intros key Hkey. rewrite (Hobj key Hkey).
    destruct u; cbn [Tile38.objects]; [|done]. by rewrite lookup_insert_ne.
  - intros name Hname. rewrite (Hchan name Hname).
    destruct u; cbn [Tile38.channels]; [done|]. by rewrite lookup_insert_ne.
Qed.

Lemma store_eq (s1 s2 : Tile38.store) :
  Tile38.objects s1 = Tile38.objects s2 →
  Tile38.channels s1 = Tile38.channels s2 → s1 = s2.
Proof. destruct s1, s2; simpl. by intros -> ->. Qed.

Lemma viewport_name_inj (a b : string) :
  "viewport:" +:+ a = "viewport:" +:+ b → a = b.
Proof. intros Heq. cbn in Heq. by injection Heq. Qed.

(** The static places as [SCAN] reports them on a store that holds
    nothing else. *)
Lemma scan_static_places (g1 g2 : string) (chans : gmap string (list arg)) :
  Tile38.scan "places"
    (Tile38.Store (<[("places", "hyatt-regency") := g2]>
                     (<[("places", "convention-center") := g1]> ∅)) chans)
  = [("convention-center", g1); ("hyatt-regency", g2)].
Proof. vm_compute. reflexivity. Qed.

Lemma main_setup_objects w :
  Tile38.objects (db (main_setup w).2)
  = <[("places", "hyatt-regency")
        := ReadFile "fences/hyatt-regency.geo.json"]>
      (<[("places", "convention-center")
           := ReadFile "fences/convention-center.geo.json"]>
         (Tile38.objects (db w))).
Proof. reflexivity. Qed.

End StoreMore.

(** What a session does, on any backend. *)
Lemma session_run {Store} `{!Conn Store} `{!Libs} (connID : string)
    (updates : list update) (w : world Store) o w' :
  session connID updates w = (o, w') →
  o = Ret tt ∧ conns w' = conns w
  ∧ ∃ acts, trace w' = trace w ++ acts
            ∧ commands acts = update_command connID <$> updates
            ∧ Forall (λ a, is_lookup a = true) acts.
Proof.
  revert w. induction updates as [|u updates IH]; intros w Hrun.
  - injection Hrun as <- <-. split; [done|]. split; [done|].
    exists []. by rewrite app_nil_r.
  - unfold session in Hrun. cbn [forRange] in Hrun. unfold bind at 1 in Hrun.
    fold (session connID updates) in Hrun.
    assert (∃ r s, handle connID u w
                   = (Ret tt, World s (conns w)
                                (trace w ++ [ADo (update_command connID u) r])))
      as (r & s & Hu).
    { destruct u as [msg|msg]; unfold handle, feature, viewport, bind, redisDo, ret;
        cbn [ConnID Message db conns trace update_command];
        match goal with
        | |- context [Do ?c ?st] => destruct (Do c st) as [r s]
        end; by exists r, s. }
    rewrite Hu in Hrun. apply IH in Hrun as (-> & Hc & acts & Ht & Hcmd & Hall).
    cbn [conns trace] in Hc, Ht. split; [done|]. split; [done|].
    exists (ADo (update_command connID u) r :: acts).
    rewrite Ht, <- app_assoc. split; [done|]. split.
    + change (ADo (update_command connID u) r :: acts)
        with ([ADo (update_command connID u) r] ++ acts).
      by rewrite commands_app, Hcmd.
    + by constructor.
Qed.

(** X10: every update of a connection goes to that connection's own key.
    Whatever the backend answers, a session of location and viewport
    updates returns normally, keeps the registry, and sends the backend
    exactly one command per update, in order: for a location update
    [SET people <id> EX 5 OBJECT <message>], for a viewport update
    [SETCHAN viewport:<id> INTERSECTS people FENCE DETECT inside BOUNDS]
    with the south-west and north-east corners, latitude first.  It does
    nothing else: no reply or error is sent to a connection or logged. *)
Theorem session_addresses_own_keys {Store} `{!Conn Store} `{!Libs}
    (connID : string) (updates : list update) (w : world Store) :
  (session connID updates w).1 = Ret tt
  ∧ conns (session connID updates w).2 = conns w
  ∧ commands (added w (session connID updates w))
    = update_command connID <$> updates
  ∧ (∀ cid, sends_to cid (added w (session connID updates w)) = [])
  ∧ logged (added w (session connID updates w)) = [].
Proof.
  destruct (session connID updates w) as [o w'] eqn:Hrun.
  apply session_run in Hrun as (-> & Hc & acts & Ht & Hcmd & Hall).
  unfold added. cbn [fst snd]. rewrite Ht, drop_app_length.
  split; [done|]. split; [done|]. split; [done|]. split.
  - intros cid. by apply lookups_no_send.
  - by apply lookups_no_log.
Qed.

(** X11: a connection's updates and its teardown touch nothing but its
    own record and fence.  On the Tile38 store, after any session of
    connection [a] followed by [onClose], the person record and the
    viewport fence of another connection [b], the static places, the
    place fences and the roaming fence are what they were. *)
Theorem session_leaves_others_alone `{!Libs} (a b : string)
    (updates : list update) (w : world Tile38.store) :
  a ≠ b →
  let w' := (onClose a (session a updates w).2).2 in
  Tile38.objects (db w') !! ("people", b)
  = Tile38.objects (db w) !! ("people", b)
  ∧ Tile38.channels (db w') !! ("viewport:" +:+ b)
    = Tile38.channels (db w) !! ("viewport:" +:+ b)
  ∧ (∀ place, Tile38.objects (db w') !! ("places", place)
              = Tile38.objects (db w) !! ("places", place))
  ∧ (∀ place, Tile38.channels (db w') !! ("place:" +:+ place)
              = Tile38.channels (db w) !! ("place:" +:+ place))
  ∧ Tile38.channels (db w') !! "roamchan"
    = Tile38.channels (db w) !! "roamchan".
Proof.
  intros Hab w'. unfold w'. rewrite onClose_Tile38. cbn [snd db].
  cbn [Tile38.objects Tile38.channels].
  destruct (session_store a updates w) as (Hobj & Hchan).
  assert (Hkey : ∀ key, key ≠ ("people", a) →
            delete ("people", a)
              (Tile38.objects (db (session a updates w).2)) !! key
            = Tile38.objects (db w) !! key).
  { intros key Hkey. rewrite lookup_delete_ne by done. by apply Hobj. }
  assert (Hname : ∀ name, name ≠ "viewport:" +:+ a →
            delete ("viewport:" +:+ a)
              (Tile38.channels (db (session a updates w).2)) !! name
            = Tile38.channels (db w) !! name).
  { intros name Hn. rewrite lookup_delete_ne by done. by apply Hchan. }
  split; [|split; [|split; [|split]]].
  - apply Hkey. congruence.
  - apply Hname. intros Heq%viewport_name_inj. congruence.
  - intros place. apply Hkey. discriminate.
  - intros place. apply Hname. discriminate.
  - apply Hname. discriminate.
Qed.

(** X12: a connection leaves no trace.  On the Tile38 store, when a
    connection has neither a person record nor a viewport fence to begin
    with, any session of location and viewport updates followed by
    [onClose] leaves the store exactly as it was. *)
Theorem onClose_undoes_session `{!Libs} (connID : string)
    (updates : list update) (w : world Tile38.store) :
  Tile38.objects (db w) !! ("people", connID) = None →
  Tile38.channels (db w) !! ("viewport:" +:+ connID) = None →
  db (onClose connID (session connID updates w).2).2 = db w.
Proof.
  intros Hp Hv. rewrite onClose_Tile38. cbn [snd db].
  destruct (session_store connID updates w) as (Hobj & Hchan).
  apply store_eq; cbn [Tile38.objects Tile38.channels]; apply map_eq.
  - intros key. destruct (decide (key = ("people", connID))) as [->|Hne].
    + by rewrite lookup_delete_eq, Hp.
    + rewrite lookup_delete_ne by done. by apply Hobj.
  - intros name. destruct (decide (name = "viewport:" +:+ connID)) as [->|Hne].
    + by rewrite lookup_delete_eq, Hv.
    + rewrite lookup_delete_ne by done. by apply Hchan.
Qed.

(** X13: startup goes through whatever the backend answers.  [main]
    sends its five commands in order (for each static place the object
    and then its fence, and last the roaming fence), ignores every reply
    and error, sends nothing to any connection, and ends up with the
    properties of both places in [props]. *)
Theorem startup_ignores_replies {Store} `{!Conn Store} `{!Libs}
    (w : world Store) :
  (main_setup w).1 = Ret main_props
  ∧ commands (added w (main_setup w)) = startup_commands
  ∧ conns (main_setup w).2 = conns w
  ∧ ∀ cid, sends_to cid (added w (main_setup w)) = [].
Proof.
  unfold main_setup, static_places, declare_places, bind, redisDo, ret, added.
  cbn [db conns trace].
  repeat match goal with
         | |- context [Do ?c ?s] => destruct (Do c s) as [? ?]
         end.
  cbn [fst snd db conns trace]. rewrite <- !app_assoc, drop_app_length.
  by repeat split.
Qed.

(** X14: what a new client sees after startup.  On the Tile38 store,
    starting with no objects, once [main] has declared the static places
    a connection that opens is sent its ID message and then the contents
    of the two fence files, and nothing else. *)
Theorem startup_then_open `{!Libs} (connID : string) (w : world Tile38.store) :
  Tile38.objects (db w) = ∅ →
  let w1 := (main_setup w).2 in
  (onOpen connID w1).1 = Ret tt
  ∧ sends_to connID (added w1 (onOpen connID w1))
    = [id_message connID;
       ReadFile "fences/convention-center.geo.json";
       ReadFile "fences/hyatt-regency.geo.json"].
Proof.
  intros Hempty w1.
  assert (Hscan : Do ("SCAN", [AStr "places"]) (db w1)
                  = ((objects_reply 0
                        [("convention-center",
                          ReadFile "fences/convention-center.geo.json");
                         ("hyatt-regency",
                          ReadFile "fences/hyatt-regency.geo.json")], None),
                     db w1)).
  { change (Do ("SCAN", [AStr "places"]) (db w1))
      with ((objects_reply 0 (Tile38.scan "places" (db w1)), @None error),
            db w1).
    f_equal. f_equal. f_equal.
    destruct (db w1) as [objs chans] eqn:Hdb.
    assert (Hobjs : objs = Tile38.objects (db w1)) by (by rewrite Hdb).
    unfold w1 in Hobjs. rewrite main_setup_objects, Hempty in Hobjs.
    rewrite Hobjs. apply scan_static_places. }
  rewrite (onOpen_run connID 0 _ _ w1 Hscan). split; [done|].
  rewrite added_app. unfold sends_to. simpl. by rewrite !String.eqb_refl.
Qed.

(** * The properties at work in the sample town *)

Section Town.

#[local] Existing Instance Sample.libs.

Lemma place_event_sent_undecorated_witness :
  "hyatt-regency" ∈ static_places
  ∧ dispatch main_props (redis.Message "place:hyatt-regency" "enter") Sample.start
    = (Ret tt, World Sample.town Sample.registry
                 ([] ++ ((λ id, ASend id "enter") <$> elements Sample.registry))).
Proof.
  assert (Hin : "hyatt-regency" ∈ static_places).
  { unfold static_places. apply elem_of_cons; right. apply elem_of_cons; by left. }
  split; [exact Hin|].
  exact (proj2 (proj2 (proj2 (place_event_sent_undecorated
                                "hyatt-regency" "enter" Sample.start Hin)))).
Defined.

(** C2, at a broken connection: two fatal errors in a row are logged and
    nothing else happens; there is no second subscription. *)
Example fatal_error_example :
  subscriber 3 main_props [redis.Error true "EOF"; redis.Error true "EOF"] Sample.start
  = (Ret tt, World Sample.town Sample.registry
               [APSubscribe patterns; ALog "EOF"; ALog "EOF"]).
Proof. reflexivity. Qed.

Lemma fatal_error_never_resubscribes_witness :
  subscriptions
    (added Sample.start
       (subscriber 3 main_props [redis.Error true "EOF"; redis.Error true "EOF"] Sample.start))
  = 1.
Proof.
  exact (proj2 (proj2 (fatal_error_never_resubscribes
                         2 main_props [redis.Error true "EOF"; redis.Error true "EOF"]
                         Sample.start))).
Defined.

Lemma viewport_event_reaches_owner_only_witness :
  free_of ":" "bob" = true
  ∧ dispatch main_props (redis.Message ("viewport:" +:+ "bob") "inside") Sample.start
    = (Ret tt, World Sample.town Sample.registry
         ([] ++ if decide ("bob" ∈ Sample.registry)
                then [ASend "bob" (decorate main_props ("viewport:" +:+ "bob") "inside")]
                else [])).
Proof.
  split; [reflexivity|].
  exact (viewport_event_reaches_owner_only main_props "bob" "inside" Sample.start eq_refl).
Defined.

(** C4, as stated, fails when the connection ID has a [":"]: the channel
    ["viewport:a:b"] matches the viewport pattern and its suffix is
    ["a:b"], but the event goes to the connection ["a"] and the
    connection ["a:b"] gets nothing. *)
Lemma viewport_event_misrouted_on_colon :
  let w : world script := World Sample.town {["a"; "a:b"]} [] in
  let r := dispatch ∅ (redis.Message "viewport:a:b" "inside") w in
  viewport_channel "viewport:a:b" = true
  ∧ "a:b" ∈ conns w
  ∧ sends_to "a:b" (added w r) = []
  ∧ sends_to "a" (added w r) = ["inside"].
Proof.
  simpl. split; [reflexivity|]. split; [set_solver|].
  unfold dispatch, bind, index, Conns_Get, Send, emit; simpl.
  rewrite decide_True by set_solver. simpl. split; reflexivity.
Qed.

Lemma broadcast_reaches_every_connection_witness :
  Contains "roamchan" "viewport" = false
  ∧ (dispatch main_props (redis.Message "roamchan" "nearby") Sample.start).1 = Ret tt.
Proof.
  split; [reflexivity|].
  exact (proj1 (broadcast_reaches_every_connection main_props "roamchan" "nearby"
                  Sample.start eq_refl)).
Defined.

(** C5, as stated, fails on a place channel whose name contains
    ["viewport"]: ["place:viewport-plaza"] does not match the viewport
    pattern, yet the registered connection gets no copy. *)
Lemma broadcast_misses_place_named_viewport :
  let w : world script := World Sample.town {["bob"]} [] in
  viewport_channel "place:viewport-plaza" = false
  ∧ "bob" ∈ conns w
  ∧ sends_to "bob" (added w (dispatch ∅ (redis.Message "place:viewport-plaza" "enter") w))
    = [].
Proof.
  simpl. split; [reflexivity|]. split; [set_solver|].
  unfold dispatch, bind, index, Conns_Get, Send, emit; simpl.
  rewrite decide_False by set_solver. reflexivity.
Qed.

Lemma town_answers :
  answers Sample.town ("INTERSECTS", places_query Sample.origin Sample.origin)
          (Sample.regions.*1)
  ∧ Forall (λ region, answers Sample.town
                        ("INTERSECTS", people_query region.1) region.2)
           Sample.regions
  ∧ answers Sample.town ("NEARBY", nearby_query Sample.origin Sample.origin)
            Sample.nearby.
Proof.
  split; [|split].
  - by exists 0%Z.
  - repeat constructor; by exists 0%Z.
  - by exists 0%Z.
Defined.

Lemma connectedClients_merges_regions_and_roaming_witness :
  ∃ idMap,
    (connectedClients Sample.origin Sample.origin Sample.start).1
    = Ret (inr idMap)
    ∧ (∀ p, is_Some (idMap !! p)
            ↔ (∃ region, region ∈ Sample.regions ∧ p ∈ region.2)
              ∨ p ∈ Sample.nearby)
    ∧ (∀ p, default [] (idMap !! p)
            = region_labels p Sample.regions ++ roaming_labels p Sample.nearby)
    ∧ (∀ p region, region ∈ Sample.regions → p ∈ region.2 →
                   region.1 ∈ region_labels p Sample.regions)
    ∧ (∀ p, p ∈ Sample.nearby →
            roaming_labels p Sample.nearby ≠ []
            ∧ Forall (λ l, l = "roaming") (roaming_labels p Sample.nearby)).
Proof.
  exact (connectedClients_merges_regions_and_roaming
           Sample.origin Sample.origin Sample.regions Sample.nearby Sample.start
           (proj1 town_answers) (proj1 (proj2 town_answers))
           (proj2 (proj2 town_answers))).
Defined.

(** C3, in the town: bob is in the convention center and nearby, alice
    only in the convention center, carol only nearby. *)
Example town_resolution :
  (connectedClients Sample.origin Sample.origin Sample.start).1
  = Ret (inr Sample.resolved).
Proof. vm_compute. reflexivity. Qed.

Lemma connectedClients_empty_or_error_witness :
  (connectedClients Sample.origin Sample.origin
     (World Sample.desert Sample.registry [])).1 = Ret (inr ∅)
  ∧ (connectedClients Sample.origin Sample.origin
       (World Sample.outage Sample.registry [])).1
    = Ret (inl "connection refused").
Proof.
  split.
  - apply (proj1 (connectedClients_empty_or_error Sample.origin Sample.origin
                    (World Sample.desert Sample.registry []))
             ["convention-center"]).
    + by exists 0%Z.
    + repeat constructor. by exists 0%Z.
    + by exists 0%Z.
  - apply (proj2 (connectedClients_empty_or_error Sample.origin Sample.origin
                    (World Sample.outage Sample.registry []))
             (ADo ("INTERSECTS", people_query "convention-center")
                  (RNil, Some "connection refused"))).
    + vm_compute. apply elem_of_cons; right. apply elem_of_cons; left. reflexivity.
    + reflexivity.
Defined.

Lemma onClose_idempotent_witness :
  db (onClose "bob" Sample.fresh).2 = db Sample.fresh.
Proof.
  apply (proj1 (proj2 (proj2 (proj2 (proj2
           (onClose_idempotent "bob" Sample.fresh)))))); apply lookup_empty.
Defined.

(** C7, after use: bob has sent a location and a viewport, so Tile38
    holds his person record and his viewport fence; [onClose] removes
    both. *)
Example onClose_after_use :
  let w := (viewport Sample.chat (feature Sample.chat Sample.fresh).2).2 in
  Tile38.objects (db w) !! ("people", "bob") = Some "hello"
  ∧ is_Some (Tile38.channels (db w) !! "viewport:bob")
  ∧ db (onClose "bob" w).2 = Tile38.empty.
Proof.
  cbn zeta. rewrite onClose_Tile38.
  unfold viewport, feature, bind, redisDo, ret, Sample.fresh. simpl.
  split; [apply lookup_insert_eq|]. split; [rewrite lookup_insert_eq; by eexists|].
  unfold Tile38.empty. by rewrite !delete_insert_eq, !delete_empty.
Qed.

Lemma onOpen_sends_id_then_places_witness :
  Do ("SCAN", [AStr "places"]) (db Sample.start)
  = ((objects_reply 0 Sample.places, None), Sample.town)
  ∧ (onOpen "bob" Sample.start).1 = Ret tt
  ∧ added Sample.start (onOpen "bob" Sample.start)
    = ASend "bob"
        ("{" +:+ String "034"%char "type" +:+ String "034"%char ":"
         +:+ String "034"%char "ID" +:+ String "034"%char ","
         +:+ String "034"%char "id" +:+ String "034"%char ":"
         +:+ String "034"%char "bob" +:+ String "034"%char "}")
      :: ADo ("SCAN", [AStr "places"]) (objects_reply 0 Sample.places, None)
      :: ((λ kv, ASend "bob" kv.2) <$> Sample.places).
Proof.
  split; [reflexivity|].
  exact (proj2 (onOpen_sends_id_then_places "bob" Sample.start)
           0%Z Sample.places Sample.town eq_refl).
Defined.

(** C8: the ID message is the text [{"type":"ID","id":"bob"}], here by
    character codes. *)
Example id_message_bytes :
  (λ ch, nat_of_ascii ch) <$> list_ascii_of_string (id_message "bob")
  = [123; 34; 116; 121; 112; 101; 34; 58; 34; 73; 68; 34; 44;
     34; 105; 100; 34; 58; 34; 98; 111; 98; 34; 125].
Proof. reflexivity. Qed.

(** C8, from a fresh Tile38: once [main] has stored the two static
    places, a new connection is sent its ID and then both places. *)
Example static_places_snapshot :
  let w := (main_setup Sample.fresh).2 in
  sends_to "bob" (added w (onOpen "bob" w))
  = [id_message "bob";
     "<fences/convention-center.geo.json>";
     "<fences/hyatt-regency.geo.json>"].
Proof. vm_compute. reflexivity. Qed.

Lemma town_chat_resolution :
  connectedClients (message_point Sample.chat).1 (message_point Sample.chat).2
    Sample.start
  = (Ret (inr Sample.resolved),
     (connectedClients Sample.origin Sample.origin Sample.start).2).
Proof. vm_compute. reflexivity. Defined.

Lemma message_reaches_resolved_connections_witness :
  (message Sample.chat Sample.start).1 = Ret tt
  ∧ ∀ cid, sends_to cid (added Sample.start (message Sample.chat Sample.start))
           = match Sample.resolved !! cid with
             | Some places =>
                 if decide (cid ∈ conns Sample.start)
                 then [sjson_SetStrings (Message Sample.chat)
                         "feature.properties.via" places]
                 else []
             | None => []
             end.
Proof.
  exact (message_reaches_resolved_connections Sample.chat Sample.resolved
           Sample.start _ town_chat_resolution).
Defined.

Lemma message_reaches_sender_witness :
  Sample.resolved !! ConnID Sample.chat = Some ["convention-center"; "roaming"]
  ∧ ConnID Sample.chat ∈ conns Sample.start
  ∧ sends_to (ConnID Sample.chat)
      (added Sample.start (message Sample.chat Sample.start))
    = [newMsg Sample.chat ["convention-center"; "roaming"]].
Proof.
  assert (Hin : Sample.resolved !! ConnID Sample.chat
                = Some ["convention-center"; "roaming"]) by reflexivity.
  assert (Hreg : ConnID Sample.chat ∈ conns Sample.start).
  { vm_compute. reflexivity. }
  split; [exact Hin|]. split; [exact Hreg|].
  exact (message_reaches_sender Sample.chat Sample.resolved _
           Sample.start _ town_chat_resolution Hin Hreg).
Defined.

(** C9 and C10, in the town: bob's chat message goes to alice and to bob
    himself, each with their own labels; carol is resolved but not
    connected and gets nothing. *)
Example town_chat :
  sends_to "alice" (added Sample.start (message Sample.chat Sample.start))
  = ["hello[feature.properties.via:=convention-center]"]
  ∧ sends_to "bob" (added Sample.start (message Sample.chat Sample.start))
    = ["hello[feature.properties.via:=convention-center,roaming]"]
  ∧ sends_to "carol" (added Sample.start (message Sample.chat Sample.start))
    = [].
Proof. vm_compute. repeat split. Qed.

End Town.

(** * The further properties at work *)

Section MoreTown.

#[local] Existing Instance Sample.libs.

Lemma dispatch_returns_on_subscribed_witness :
  deliverable (redis.Message "place:viewport-plaza" "enter") = true
  ∧ (dispatch main_props (redis.Message "place:viewport-plaza" "enter")
       Sample.start).1 = Ret tt.
Proof.
  split; [reflexivity|].
  exact (dispatch_returns_on_subscribed main_props
           (redis.Message "place:viewport-plaza" "enter") Sample.start eq_refl).
Defined.

Lemma relay_keeps_order_witness :
  forallb deliverable Edge.events = true
  ∧ (receive_loop main_props Edge.events Sample.start).1 = Ret Receiving
  ∧ sends_to "bob" (added Sample.start
                      (receive_loop main_props Edge.events Sample.start))
    = concat ((λ v, sends_to "bob" (relayed main_props v Sample.start))
                <$> Edge.events).
Proof.
  split; [reflexivity|].
  exact (relay_keeps_order main_props Edge.events Sample.start "bob" eq_refl).
Defined.

(** X2, in the town: bob gets the broadcasts and his own viewport event
    in the order they came; alice gets the broadcasts only; the error is
    sent to nobody. *)
Example town_relay :
  sends_to "bob" (added Sample.start
                    (receive_loop main_props Edge.events Sample.start))
  = ["e1"; "v1"; "e2"]
  ∧ sends_to "alice" (added Sample.start
                        (receive_loop main_props Edge.events Sample.start))
    = ["e1"; "e2"]
  ∧ logged (added Sample.start
              (receive_loop main_props Edge.events Sample.start))
    = ["oops"].
Proof. vm_compute. repeat split. Qed.

Lemma resolution_without_places_witness :
  ∃ idMap,
    (connectedClients Sample.origin Sample.origin (Edge.on Edge.flat)).1
    = Ret (inr idMap)
    ∧ commands (added (Edge.on Edge.flat)
                  (connectedClients Sample.origin Sample.origin
                     (Edge.on Edge.flat)))
      = [("INTERSECTS", places_query Sample.origin Sample.origin);
         ("NEARBY", nearby_query Sample.origin Sample.origin)]
    ∧ (∀ p, is_Some (idMap !! p) ↔ p ∈ ["bob"; "carol"])
    ∧ (∀ p, default [] (idMap !! p) = roaming_labels p ["bob"; "carol"]).
Proof.
  apply (resolution_without_places Sample.origin Sample.origin
           (RArray [], None) [] ["bob"; "carol"] (Edge.on Edge.flat)).
  - reflexivity.
  - reflexivity.
  - simpl. lia.
  - by exists 0%Z.
Defined.

Lemma resolution_panics_on_short_reply_witness :
  (connectedClients Sample.origin Sample.origin (Edge.on Edge.mute)).1
  = Panic "index out of range"
  ∧ (connectedClients Sample.origin Sample.origin (Edge.on Edge.second)).1
    = Panic "index out of range"
  ∧ (connectedClients Sample.origin Sample.origin (Edge.on Edge.hollow)).1
    = Panic "index out of range".
Proof.
  split; [|split].
  - apply (resolution_panics_on_short_reply Sample.origin Sample.origin
             (Edge.on Edge.mute)
             (ADo ("NEARBY", nearby_query Sample.origin Sample.origin)
                  (RArray [], None))).
    + vm_compute. apply elem_of_cons; right. apply elem_of_cons; left.
      reflexivity.
    + eexists _, _, []. split; [reflexivity|]. split; [by left|].
      split; [reflexivity|]. simpl. lia.
  - apply (resolution_panics_on_short_reply Sample.origin Sample.origin
             (Edge.on Edge.second)
             (ADo ("INTERSECTS", people_query "hyatt-regency")
                  (RArray [], None))).
    + vm_compute. apply elem_of_cons; right. apply elem_of_cons; right.
      apply elem_of_cons; left. reflexivity.
    + eexists _, _, []. split; [reflexivity|].
      split; [right; by eexists|]. split; [reflexivity|]. simpl. lia.
  - apply (resolution_panics_on_short_reply Sample.origin Sample.origin
             (Edge.on Edge.hollow)
             (ADo ("NEARBY", nearby_query Sample.origin Sample.origin)
                  (RArray [], None))).
    + vm_compute. apply elem_of_cons; right. apply elem_of_cons; left.
      reflexivity.
    + eexists _, _, []. split; [reflexivity|]. split; [by left|].
      split; [reflexivity|]. simpl. lia.
Defined.

Lemma outage_chat_resolution :
  connectedClients (message_point Sample.chat).1 (message_point Sample.chat).2
    (Edge.on Sample.outage)
  = (Ret (inl "connection refused"),
     (connectedClients Sample.origin Sample.origin (Edge.on Sample.outage)).2).
Proof. vm_compute. reflexivity. Defined.

Lemma message_logs_failed_resolution_witness :
  (message Sample.chat (Edge.on Sample.outage)).1 = Ret tt
  ∧ logged (added (Edge.on Sample.outage)
              (message Sample.chat (Edge.on Sample.outage)))
    = ["connectedClients: " +:+ "connection refused"]
  ∧ ∀ cid, sends_to cid (added (Edge.on Sample.outage)
                           (message Sample.chat (Edge.on Sample.outage)))
           = [].
Proof.
  exact (message_logs_failed_resolution Sample.chat "connection refused"
           (Edge.on Sample.outage) _ outage_chat_resolution).
Defined.

Lemma onOpen_without_places_witness :
  added (Edge.on Edge.down) (onOpen "bob" (Edge.on Edge.down))
  = [ASend "bob" (id_message "bob");
     ADo ("SCAN", [AStr "places"]) (RNil, Some "connection refused");
     ALog ("onOpen: " +:+ "connection refused")]
  ∧ added (Edge.on Edge.hollow) (onOpen "bob" (Edge.on Edge.hollow))
    = [ASend "bob" (id_message "bob");
       ADo ("SCAN", [AStr "places"]) (RArray [], None)].
Proof.
  assert (Hdown : Do ("SCAN", [AStr "places"]) (db (Edge.on Edge.down))
                  = ((RNil, Some "connection refused"), Edge.down))
    by reflexivity.
  assert (Hhollow : Do ("SCAN", [AStr "places"]) (db (Edge.on Edge.hollow))
                    = ((RArray [], None), Edge.hollow))
    by reflexivity.
  split.
  - apply (proj1 (onOpen_without_places "bob" _ _ _ Hdown)
             [] "connection refused").
    reflexivity.
  - apply (proj2 (onOpen_without_places "bob" _ _ _ Hhollow) []).
    + reflexivity.
    + simpl. lia.
Defined.

Lemma onOpen_serves_its_client_only_witness :
  "alice" ≠ "bob"
  ∧ sends_to "alice" (added Sample.start (onOpen "bob" Sample.start)) = []
  ∧ commands (added Sample.start (onOpen "bob" Sample.start))
    = [("SCAN", [AStr "places"])].
Proof.
  assert (Hne : "alice" ≠ "bob") by discriminate.
  split; [exact Hne|].
  exact (onOpen_serves_its_client_only "bob" "alice" Sample.start Hne).
Defined.

Lemma session_leaves_others_alone_witness :
  "bob" ≠ "alice"
  ∧ Tile38.objects
      (db (onClose "bob" (session "bob" Edge.updates
                            (feature {| ConnID := "alice"; Message := "hi" |}
                               Sample.fresh).2).2).2)
      !! ("people", "alice")
    = Some "hi".
Proof.
  assert (Hne : "bob" ≠ "alice") by discriminate.
  split; [exact Hne|].
  rewrite (proj1 (session_leaves_others_alone "bob" "alice" Edge.updates
                    (feature {| ConnID := "alice"; Message := "hi" |}
                       Sample.fresh).2 Hne)).
  reflexivity.
Defined.

Lemma onClose_undoes_session_witness :
  db (onClose "bob" (session "bob" Edge.updates Sample.fresh).2).2
  = db Sample.fresh.
Proof.
  apply (onClose_undoes_session "bob" Edge.updates Sample.fresh);
    apply lookup_empty.
Defined.

(** X10, for bob on the town's backend: three updates, three commands
    under his own keys. *)
Example bob_commands :
  commands (added Sample.start (session "bob" Edge.updates Sample.start))
  = [("SET", [AStr "people"; AStr "bob"; AStr "EX"; AInt 5;
              AStr "OBJECT"; AStr "here"]);
     ("SETCHAN", [AStr "viewport:bob"; AStr "INTERSECTS"; AStr "people";
                  AStr "FENCE"; AStr "DETECT"; AStr "inside"; AStr "BOUNDS";
                  AFloat PrimFloat.zero; AFloat PrimFloat.zero;
                  AFloat PrimFloat.zero; AFloat PrimFloat.zero]);
     ("SET", [AStr "people"; AStr "bob"; AStr "EX"; AInt 5;
              AStr "OBJECT"; AStr "there"])].
Proof. vm_compute. reflexivity. Qed.

Lemma startup_then_open_witness :
  sends_to "bob" (added (main_setup Sample.fresh).2
                    (onOpen "bob" (main_setup Sample.fresh).2))
  = [id_message "bob";
     ReadFile "fences/convention-center.geo.json";
     ReadFile "fences/hyatt-regency.geo.json"].
Proof.
  exact (proj2 (startup_then_open "bob" Sample.fresh eq_refl)).
Defined.

Lemma relay_is_verbatim_witness :
  subscribed "place:hyatt-regency" = true
  ∧ decorate main_props "place:hyatt-regency" "enter" = "enter"
  ∧ dispatch main_props (redis.Message "place:hyatt-regency" "enter")
      Sample.start
    = dispatch ∅ (redis.Message "place:hyatt-regency" "enter") Sample.start.
Proof.
  split; [reflexivity|].
  exact (relay_is_verbatim "place:hyatt-regency" "enter" Sample.start eq_refl).
Defined.

End MoreTown.
